(** * adlib: a shallow embedding of the controller and brain-screen helpers

    The development follows [adlib.h] and [adlib.cpp].  C++ [int]s are
    integers of [Z] (signed overflow is undefined behaviour in C++, so the
    model covers the executions that stay in range), a [char] cell is an
    [ascii], a [uint8_t] is a [byte], a C string is a [string] cut at its
    first NUL.  Every call into PROS (the hardware layer) and every
    invocation of a registered [std::function] is recorded as an [event];
    a method returns the new object state together with the events it
    emitted, in order. *)

From Stdlib Require Import ZArith Lia Ascii String.
From Stdlib.Strings Require Import Byte.
From stdpp Require Import base list strings pretty.

Local Open Scope Z_scope.

(** ** Events: the calls that leave the library *)

(** A registered [std::function] is opaque to the library: it is known by
    a name and observed through the fact that it was invoked.  A callback
    is taken not to call back into the object that invokes it, and the
    calls of different tasks on one object are taken one after the other. *)
Definition callback : Type := string.

(** [pros::text_format_e_t], as far as the library uses it. *)
Inductive text_format : Type := E_TEXT_MEDIUM | E_TEXT_LARGE.

Inductive event : Type :=
| get_digital (button : Z)                      (* pros::Controller::get_digital *)
| invoke (f : callback)                         (* f() *)
| pros_clear                                    (* pros::Controller::clear *)
| pros_rumble (pattern : string)                (* pros::Controller::rumble *)
| pros_print (row col : Z) (msg : string)       (* pros::Controller::print *)
| task_create                                   (* new pros::Task *)
| delay (ms : Z)                                (* pros::delay *)
| touch_status                                  (* pros::screen::touch_status *)
| set_pen (color : Z)                           (* pros::screen::set_pen *)
| set_eraser (color : Z)                        (* pros::screen::set_eraser *)
| erase_rect (x0 y0 x1 y1 : Z)                  (* pros::screen::erase_rect *)
| draw_pixel (x y : Z)                          (* pros::screen::draw_pixel *)
| screen_print (font : text_format) (x y : Z) (text : string)
                                                (* pros::screen::print *)
| fopen (filename : string)
| fread (size : Z)
| fclose.

(** [if (f != nullptr) f();] *)
Definition fire (f : option callback) : list event :=
  match f with
  | Some g => [invoke g]
  | None => []
  end.

(** ** Characters and C strings *)

Definition NUL : ascii := Ascii.zero.

(** [char(z)]: the low eight bits of [z]. *)
Definition char_of_int (z : Z) : ascii := ascii_of_N (Z.to_N (z mod 256)).

(** [(int)c]: plain [char] is unsigned on the ARM target of PROS and signed
    on other ABIs; the model takes the signedness as a parameter. *)
Definition int_of_char (char_signed : bool) (c : ascii) : Z :=
  let n := Z.of_N (N_of_ascii c) in
  if char_signed && (128 <=? n) then n - 256 else n.

(** The characters a [const char*] designates: those before the first NUL. *)
Fixpoint c_str (l : list ascii) : list ascii :=
  match l with
  | [] => []
  | a :: l' => if Ascii.eqb a NUL then [] else a :: c_str l'
  end.

(** [snprintf(dst, n, "%s", s)] and [vsnprintf(dst, n, fmt, args)] store at
    most [n - 1] characters of the expansion, then a NUL. *)
Definition snprintf (n : nat) (expansion : string) : list ascii :=
  take (n - 1)%nat (c_str (list_ascii_of_string expansion)) ++ [NUL].

(** The text that such a call leaves in a field of [n] bytes. *)
Definition fit (n : nat) (s : string) : string :=
  string_of_list_ascii (take (n - 1)%nat (c_str (list_ascii_of_string s))).

(** The expansion of the format ["%<width>s"] applied to [s]: [s] right
    justified in a field of [width] characters, padded with spaces. *)
Definition format_width_s (width : nat) (s : string) : string :=
  string_of_list_ascii
    (replicate (width - String.length s)%nat " "%char
       ++ c_str (list_ascii_of_string s)).

(** [memcpy]-like store of [bs] at offset [off] of a character array. *)
Definition store (off : nat) (bs : list ascii) (a : list ascii) : list ascii :=
  take off a ++ bs ++ drop (off + length bs)%nat a.

(** The C string that starts at offset [off] of a character array. *)
Definition string_at (off : nat) (a : list ascii) : string :=
  string_of_list_ascii (c_str (drop off a)).

Module Controller.

(** *** Data (adlib.h, class Controller) *)

Record ButtonStruct : Type := mkButton {
  id : Z;
  last_state : bool;
  on_press : option callback;
  on_release : option callback
}.

Definition MAX_NUM_OF_MSG : Z := 8.
Definition MAX_MSG_LEN : Z := 36.
Definition MSG_CLEAR : Z := 1.
Definition MSG_RUMBLE : Z := 2.
Definition MSG_TEXT : Z := 3.

Record t : Type := mk {
  controller_task : bool;            (* controller_task != nullptr *)
  buttons : list ButtonStruct;
  buf : list (list ascii);           (* char buf[MAX_NUM_OF_MSG][MAX_MSG_LEN] *)
  rd_ptr : Z;
  wr_ptr : Z
}.

Definition set_controller_task (v : bool) (c : t) : t :=
  mk v (buttons c) (buf c) (rd_ptr c) (wr_ptr c).
Definition set_buttons (v : list ButtonStruct) (c : t) : t :=
  mk (controller_task c) v (buf c) (rd_ptr c) (wr_ptr c).
Definition set_buf (v : list (list ascii)) (c : t) : t :=
  mk (controller_task c) (buttons c) v (rd_ptr c) (wr_ptr c).
Definition set_rd_ptr (v : Z) (c : t) : t :=
  mk (controller_task c) (buttons c) (buf c) v (wr_ptr c).
Definition set_wr_ptr (v : Z) (c : t) : t :=
  mk (controller_task c) (buttons c) (buf c) (rd_ptr c) v.

(** [buf[i]] *)
Definition slot (c : t) (i : Z) : list ascii :=
  default [] (buf c !! Z.to_nat i).

(** The slot under the write index replaced by [s]. *)
Definition put (s : list ascii) (c : t) : t :=
  set_buf (<[Z.to_nat (wr_ptr c) := s]> (buf c)) c.

(** [buf[wr_ptr][j] = v] for one cell, and a store of several cells from
    [&buf[wr_ptr][j]] on. *)
Definition poke (j : nat) (v : Z) (c : t) : t :=
  put (<[j := char_of_int v]> (slot c (wr_ptr c))) c.
Definition poke_str (j : nat) (bs : list ascii) (c : t) : t :=
  put (store j bs (slot c (wr_ptr c))) c.

(** *** The ring buffer (adlib.cpp, 83-97) *)

Definition is_buf_full (c : t) : bool :=
  (wr_ptr c + 1) `rem` MAX_NUM_OF_MSG =? rd_ptr c.

Definition is_buf_empty (c : t) : bool :=
  rd_ptr c =? wr_ptr c.

Definition update_wr_ptr (c : t) : t :=
  set_wr_ptr ((wr_ptr c + 1) `rem` MAX_NUM_OF_MSG) c.

Definition update_rd_ptr (c : t) : t :=
  set_rd_ptr ((rd_ptr c + 1) `rem` MAX_NUM_OF_MSG) c.

(** *** Producers (adlib.cpp, 99-133) *)

(** [print(row, col, fmt, ...)]; [expansion] is the text that [fmt] and the
    variadic arguments expand to. *)
Definition print (row col : Z) (expansion : string) (c : t) : t :=
  if is_buf_full c then c
  else
    let c := poke 0 MSG_TEXT c in
    let c := poke 1 row c in
    let c := poke 2 col c in
    let c := poke_str 3 (snprintf (Z.to_nat (MAX_MSG_LEN - 4)) expansion) c in
    update_wr_ptr c.

Definition clear (row : Z) (c : t) : t :=
  if is_buf_full c then c
  else if row =? -1 then
    let c := poke 0 MSG_CLEAR c in
    update_wr_ptr c
  else print row 0 (format_width_s 28 "") c.

Definition rumble (rumble_pattern : string) (c : t) : t :=
  if is_buf_full c then c
  else
    let c := poke 0 MSG_RUMBLE c in
    let c := poke_str 1 (snprintf (Z.to_nat (MAX_MSG_LEN - 1)) rumble_pattern) c in
    update_wr_ptr c.

Section Methods.

Variable char_signed : bool.

(** What [print_process] does with the slot it reads. *)
Definition forward (s : list ascii) : list event :=
  let tag := int_of_char char_signed (default NUL (s !! 0%nat)) in
  if tag =? MSG_CLEAR then [pros_clear]
  else if tag =? MSG_RUMBLE then [pros_rumble (string_at 1 s)]
  else if tag =? MSG_TEXT then
    [pros_print (int_of_char char_signed (default NUL (s !! 1%nat)))
                (int_of_char char_signed (default NUL (s !! 2%nat)))
                (string_at 3 s)]
  else [].

(** *** Consumer (adlib.cpp, 135-153) *)
Definition print_process (c : t) : t * list event :=
  if is_buf_empty c then (c, [])
  else (update_rd_ptr c, forward (slot c (rd_ptr c))).

(** *** Buttons (adlib.cpp, 43-81) *)

Definition set_last_state (v : bool) (b : ButtonStruct) : ButtonStruct :=
  mkButton (id b) v (on_press b) (on_release b).
Definition set_on_press (v : option callback) (b : ButtonStruct) : ButtonStruct :=
  mkButton (id b) (last_state b) v (on_release b).
Definition set_on_release (v : option callback) (b : ButtonStruct) : ButtonStruct :=
  mkButton (id b) (last_state b) (on_press b) v.

(** The [for] loops of [button_pressed] and [button_released]: the first
    entry whose id matches is updated, then the function returns. *)
Fixpoint register (set : ButtonStruct -> ButtonStruct) (button : Z)
    (bs : list ButtonStruct) : list ButtonStruct :=
  match bs with
  | [] => []
  | b :: bs' =>
      if id b =? button then set b :: bs'
      else b :: register set button bs'
  end.

Definition button_pressed (button : Z) (f : option callback) (c : t) : t :=
  set_buttons (register (set_on_press f) button (buttons c)) c.

Definition button_released (button : Z) (f : option callback) (c : t) : t :=
  set_buttons (register (set_on_release f) button (buttons c)) c.

(** The body of the [for] loop of [button_process] for one entry; [levels]
    is what [get_digital] answers during this pass. *)
Definition button_iteration (levels : Z -> bool) (b : ButtonStruct) :
    ButtonStruct * list event :=
  let state := levels (id b) in
  if state && negb (last_state b) then
    (set_last_state state b, get_digital (id b) :: fire (on_press b))
  else if negb state && last_state b then
    (set_last_state state b, get_digital (id b) :: fire (on_release b))
  else (b, [get_digital (id b)]).

Fixpoint button_loop (levels : Z -> bool) (bs : list ButtonStruct) :
    list ButtonStruct * list event :=
  match bs with
  | [] => ([], [])
  | b :: bs' =>
      let '(b1, e1) := button_iteration levels b in
      let '(bs1, e2) := button_loop levels bs' in
      (b1 :: bs1, e1 ++ e2)
  end.

Definition button_process (levels : Z -> bool) (c : t) : t * list event :=
  let '(bs, e) := button_loop levels (buttons c) in
  (set_buttons bs c, e).

(** *** The background task (adlib.cpp, 22-36) *)

Definition start_task (c : t) : t * list event :=
  if controller_task c then (c, [])
  else (set_controller_task true c, [task_create]).

(** One iteration of the [while (true)] loop of the task; [disp_cnt] is
    the local counter of the lambda. *)
Definition task_iteration (levels : Z -> bool) (st : Z * t) :
    (Z * t) * list event :=
  let '(disp_cnt, c) := st in
  let '(c, e1) := button_process levels c in
  let '(c, e2) := if disp_cnt =? 0 then print_process c else (c, []) in
  let disp_cnt := (disp_cnt + 1) `rem` 2 in
  ((disp_cnt, c), e1 ++ e2 ++ [delay 25]).

(** The first [length samples] iterations of the loop, one sampling of the
    buttons per iteration. *)
Fixpoint task_loop (samples : list (Z -> bool)) (st : Z * t) :
    (Z * t) * list event :=
  match samples with
  | [] => (st, [])
  | levels :: samples' =>
      let '(st1, e1) := task_iteration levels st in
      let '(st2, e2) := task_loop samples' st1 in
      (st2, e1 ++ e2)
  end.

(** The task body from its start: [int disp_cnt = 0;] then the loop. *)
Definition task_body (samples : list (Z -> bool)) (c : t) : (Z * t) * list event :=
  task_loop samples (0, c).

(** *** Observations on buttons and on the task *)

(** The callbacks a trace invokes, and the buttons it reads, in order. *)
Definition invoked (es : list event) : list callback :=
  flat_map (fun e => match e with invoke f => [f] | _ => [] end) es.

Definition reads (es : list event) : list Z :=
  flat_map (fun e => match e with get_digital b => [b] | _ => [] end) es.

(** Successive passes of [button_process], one per sampling; the events of
    each pass are kept apart. *)
Fixpoint button_polls (samples : list (Z -> bool)) (c : t) :
    t * list (list event) :=
  match samples with
  | [] => (c, [])
  | levels :: samples' =>
      let '(c1, e) := button_process levels c in
      let '(c2, es) := button_polls samples' c1 in
      (c2, e :: es)
  end.

(** Edge detection as the specification words it: between the previous
    level [prev] and the sampled level [cur] of a button, a rise invokes
    the press callback, a fall invokes the release callback, and nothing
    else invokes anything. *)
Definition edge (prev cur : bool) (press release : option callback) :
    list callback :=
  match prev, cur with
  | false, true => match press with Some f => [f] | None => [] end
  | true, false => match release with Some f => [f] | None => [] end
  | _, _ => []
  end.

(** The callbacks of one button over successive samples of its level. *)
Fixpoint edges (prev : bool) (levels : list bool)
    (press release : option callback) : list (list callback) :=
  match levels with
  | [] => []
  | cur :: levels' => edge prev cur press release :: edges cur levels' press release
  end.

(** An entry without callbacks, and a vector in which one entry of id
    [button] carries the callbacks [press] and [release] and remembers the
    level [prev], all other entries being without callbacks. *)
Definition quiet (b : ButtonStruct) : Prop :=
  on_press b = None /\ on_release b = None.

Definition armed (button : Z) (press release : option callback) (prev : bool)
    (bs : list ButtonStruct) : Prop :=
  exists (pre : list ButtonStruct) (b : ButtonStruct) (post : list ButtonStruct),
    bs = pre ++ b :: post /\ Forall quiet pre /\ Forall quiet post /\
    id b = button /\ last_state b = prev /\
    on_press b = press /\ on_release b = release.

(** The poller as the specification words it: cycle [k] runs the button
    pass, drains the queue when [k] is even, and sleeps 25. *)
Definition cycle (drain : bool) (levels : Z -> bool) (c : t) : t * list event :=
  let '(c, e1) := button_process levels c in
  let '(c, e2) := if drain then print_process c else (c, []) in
  (c, e1 ++ e2 ++ [delay 25]).

Fixpoint poller (k : nat) (samples : list (Z -> bool)) (c : t) : t * list event :=
  match samples with
  | [] => (c, [])
  | levels :: samples' =>
      let '(c1, e1) := cycle (Nat.even k) levels c in
      let '(c2, e2) := poller (S k) samples' c1 in
      (c2, e1 ++ e2)
  end.

(** *** Runs of the output queue *)

Inductive producer : Type :=
| Clear (row : Z)
| Print (row col : Z) (expansion : string)
| Rumble (rumble_pattern : string).

Inductive call : Type :=
| Produce (p : producer)
| PrintProcess.

Definition produce (p : producer) (c : t) : t :=
  match p with
  | Clear row => clear row c
  | Print row col expansion => print row col expansion c
  | Rumble rumble_pattern => rumble rumble_pattern c
  end.

Definition step (o : call) (c : t) : t * list event :=
  match o with
  | Produce p => (produce p c, [])
  | PrintProcess => print_process c
  end.

Fixpoint run (l : list call) (c : t) : t * list event :=
  match l with
  | [] => (c, [])
  | o :: l' =>
      let '(c1, e1) := step o c in
      let '(c2, e2) := run l' c1 in
      (c2, e1 ++ e2)
  end.

(** The producer calls of a run that were made while the buffer was not
    full, in call order. *)
Fixpoint accepted (l : list call) (c : t) : list producer :=
  match l with
  | [] => []
  | o :: l' =>
      match o with
      | Produce p => if is_buf_full c then [] else [p]
      | PrintProcess => []
      end ++ accepted l' (fst (step o c))
  end.

(** A character stored in a cell and read back as an [int]. *)
Definition cell (z : Z) : Z := int_of_char char_signed (char_of_int z).

(** The call on the output link that a producer call stands for. *)
Definition command (p : producer) : event :=
  match p with
  | Clear row =>
      if row =? -1 then pros_clear
      else pros_print (cell row) (cell 0) (fit 32 (format_width_s 28 ""))
  | Print row col expansion => pros_print (cell row) (cell col) (fit 32 expansion)
  | Rumble rumble_pattern => pros_rumble (fit 35 rumble_pattern)
  end.

(** The number of slots between the read and the write index, and what
    draining them would send, oldest first. *)
Definition queue_len (c : t) : nat :=
  Z.to_nat ((wr_ptr c - rd_ptr c) mod MAX_NUM_OF_MSG).

Definition pending (c : t) : list event :=
  flat_map
    (fun k : nat => forward (slot c ((rd_ptr c + Z.of_nat k) mod MAX_NUM_OF_MSG)))
    (seq 0 (queue_len c)).

(** The shape of the object: eight slots of thirty-six cells, both
    indices inside the array. *)
Definition wf (c : t) : Prop :=
  length (buf c) = Z.to_nat MAX_NUM_OF_MSG /\
  Forall (fun s => length s = Z.to_nat MAX_MSG_LEN) (buf c) /\
  0 <= rd_ptr c < MAX_NUM_OF_MSG /\
  0 <= wr_ptr c < MAX_NUM_OF_MSG.

(** [holds c cmds]: the slots from the read index up to the write index
    store the producer calls [cmds], oldest first. *)
Definition holds (c : t) (cmds : list producer) : Prop :=
  wf c /\
  length cmds = queue_len c /\
  forall (k : nat) (p : producer),
    cmds !! k = Some p ->
    forward (slot c ((rd_ptr c + Z.of_nat k) mod MAX_NUM_OF_MSG)) = [command p].

End Methods.

(** *** Construction (adlib.h, 46-84) *)

Section Construction.

(** The enumerators of [pros::controller_digital_e_t] are declared by
    PROS; their values are parameters here. *)
Variables BUTTON_A BUTTON_B BUTTON_X BUTTON_Y : Z.
Variables BUTTON_UP BUTTON_DOWN BUTTON_LEFT BUTTON_RIGHT : Z.
Variables BUTTON_L1 BUTTON_L2 BUTTON_R1 BUTTON_R2 : Z.

Definition initial_buttons : list ButtonStruct :=
  map (fun i => mkButton i false None None)
    [BUTTON_A; BUTTON_B; BUTTON_X; BUTTON_Y;
     BUTTON_UP; BUTTON_DOWN; BUTTON_LEFT; BUTTON_RIGHT;
     BUTTON_L1; BUTTON_L2; BUTTON_R1; BUTTON_R2].

(** [buf] has no initialiser: [memory i j] is whatever [buf[i][j]] holds
    when the object is constructed. *)
Definition new (memory : nat -> nat -> ascii) : t :=
  mk false initial_buttons
     (map (fun i => map (memory i) (seq 0 (Z.to_nat MAX_MSG_LEN)))
          (seq 0 (Z.to_nat MAX_NUM_OF_MSG)))
     0 0.

End Construction.

(** *** Further observations *)

(** The calls on the output link in a trace, in order. *)
Definition link (es : list event) : list event :=
  flat_map
    (fun e =>
       match e with
       | pros_clear | pros_rumble _ | pros_print _ _ _ => [e]
       | _ => []
       end) es.

(** How many of the [n] cycles that follow cycle [k] (included) have an
    even number. *)
Fixpoint drains (k n : nat) : nat :=
  match n with
  | O => O
  | S n' => ((if Nat.even k then 1 else 0) + drains (S k) n')%nat
  end.

(** [n] callbacks that alternate, [first] coming first. *)
Fixpoint alternating (first second : callback) (n : nat) : list callback :=
  match n with
  | O => []
  | S n' => first :: alternating second first n'
  end.

(** The number of changes of level in a sequence of samples that follows
    the level [prev]. *)
Fixpoint transitions (prev : bool) (levels : list bool) : nat :=
  match levels with
  | [] => O
  | cur :: levels' =>
      ((if eqb prev cur then 0 else 1) + transitions cur levels')%nat
  end.

(** The text of a well-formed producer argument: no NUL inside. *)
Definition plain (s : string) : Prop :=
  c_str (list_ascii_of_string s) = list_ascii_of_string s.

End Controller.

Module Brain.

Definition SCREEN_W : Z := 480.
Definition SCREEN_H : Z := 239.
Definition FONT_W : Z := 10.
Definition FONT_H : Z := 20.
Definition OFFSET_X : Z := 0.
Definition OFFSET_Y : Z := 2.
Definition CENTER : Z := 65535.

(** *** Widgets (adlib.h, class Brain::Button) *)

Module Button.

Record t : Type := mk {
  x1 : Z; y1 : Z; x2 : Z; y2 : Z; radius : Z;
  big : bool;
  text : string;
  color : Z;
  bgcolor : Z;
  on_press : option callback;
  on_release : option callback
}.

(** The constructor, up to the self-registration (adlib.cpp, 436-455).
    [w / 2] is the truncating division of C++. *)
Definition init (text : string) (color bgcolor : Z) (x y w h radius : Z)
    (big : bool) : t :=
  mk x y (x + w - 1) (y + h - 1)
     (if radius <? 0 then 0
      else if (w `quot` 2 <? radius) || (h `quot` 2 <? radius)
           then Z.min (w `quot` 2) (h `quot` 2)
      else radius)
     big text color bgcolor None None.

Definition pressed (f : option callback) (b : t) : t :=
  mk (x1 b) (y1 b) (x2 b) (y2 b) (radius b) (big b) (text b) (color b)
     (bgcolor b) f (on_release b).

Definition released (f : option callback) (b : t) : t :=
  mk (x1 b) (y1 b) (x2 b) (y2 b) (radius b) (big b) (text b) (color b)
     (bgcolor b) (on_press b) f.

(** [is_touched] (adlib.cpp, 536-539); [status] is what
    [pros::screen::touch_status] answers to this call. *)
Definition is_touched (status : Z * Z) (b : t) : bool :=
  (x1 b <=? status.1) && (status.1 <=? x2 b)
  && (y1 b <=? status.2) && (status.2 <=? y2 b).

End Button.

(** *** The display and the process-wide state *)

(** A [Brain] object; [buttons] holds pointers to widgets, a pointer being
    the index of the widget in the store of the process. *)
Record t : Type := mk {
  on_press : option callback;
  on_release : option callback;
  buttons : list nat
}.

(** The objects of the process: the static [Brain::instance] (a pointer,
    the index of a [Brain] in [brains], or null), the [Brain] objects and
    the [Brain::Button] objects constructed so far. *)
Record process : Type := mkProcess {
  instance : option nat;
  brains : list t;
  widgets : list Button.t
}.

Definition start : process := mkProcess None [] [].

(** [Brain::Brain()] (adlib.cpp, 162-164): the new object, and
    [Brain::instance = this]. *)
Definition new (w : process) : process * nat :=
  let this := length (brains w) in
  (mkProcess (Some this) (brains w ++ [mk None None []]) (widgets w), this).

Definition push_back (button : nat) (b : t) : t :=
  mk (on_press b) (on_release b) (buttons b ++ [button]).

(** [Brain::Button::Button] (adlib.cpp, 436-461): the new widget, pushed
    on the list of [Brain::instance] when that is not null. *)
Definition new_Button (text : string) (color bgcolor : Z) (x y w h radius : Z)
    (big : bool) (p : process) : process * nat :=
  let this := length (widgets p) in
  let store := widgets p ++ [Button.init text color bgcolor x y w h radius big] in
  match instance p with
  | Some parent =>
      (mkProcess (instance p) (alter (push_back this) parent (brains p)) store, this)
  | None => (mkProcess (instance p) (brains p) store, this)
  end.

(** [Brain::pressed], [Brain::released] on the display [self], and
    [Button::pressed], [Button::released] on the widget [button]. *)
Definition pressed (self : nat) (f : option callback) (p : process) : process :=
  mkProcess (instance p)
    (alter (fun b => mk f (on_release b) (buttons b)) self (brains p)) (widgets p).

Definition released (self : nat) (f : option callback) (p : process) : process :=
  mkProcess (instance p)
    (alter (fun b => mk (on_press b) f (buttons b)) self (brains p)) (widgets p).

Definition Button_pressed (button : nat) (f : option callback) (p : process) :
    process :=
  mkProcess (instance p) (brains p) (alter (Button.pressed f) button (widgets p)).

Definition Button_released (button : nat) (f : option callback) (p : process) :
    process :=
  mkProcess (instance p) (brains p) (alter (Button.released f) button (widgets p)).

(** *** Touch dispatch (adlib.cpp, 218-251) *)

(** The [for] loop over the widgets: [status k] is the answer of the
    [k]-th call of [touch_status] during the event, [pick] selects the
    press or the release callback of a widget. *)
Fixpoint hit_loop (pick : Button.t -> option callback) (status : nat -> Z * Z)
    (k : nat) (ws : list Button.t) : list event :=
  match ws with
  | [] => []
  | b :: ws' =>
      touch_status ::
      if Button.is_touched (status k) b then fire (pick b)
      else hit_loop pick status (S k) ws'
  end.

(** The body shared by [touch_pressed_func] and [touch_released_func]:
    [filter] is the whole-screen callback, [ret f] what [f] returns when it
    is called during this event. *)
Definition touch_func (filter : option callback) (pick : Button.t -> option callback)
    (ret : callback -> bool) (status : nat -> Z * Z) (ws : list Button.t) :
    list event :=
  match filter with
  | Some f =>
      invoke f :: if ret f then hit_loop pick status 0 ws else []
  | None => hit_loop pick status 0 ws
  end.

(** The rectangle of a widget contains a point, bounds included. *)
Definition contains (xy : Z * Z) (b : Button.t) : Prop :=
  Button.x1 b <= xy.1 <= Button.x2 b /\ Button.y1 b <= xy.2 <= Button.y2 b.

(** The whole-screen callback lets the event through to the widgets. *)
Definition passes (filter : option callback) (ret : callback -> bool) : bool :=
  match filter with
  | Some f => ret f
  | None => true
  end.

(** The widgets a display points to. *)
Definition listed (p : process) (b : t) : list Button.t :=
  omap (fun i => widgets p !! i) (buttons b).

Definition touch_pressed_func (ret : callback -> bool) (status : nat -> Z * Z)
    (p : process) (self : t) : list event :=
  touch_func (on_press self) Button.on_press ret status (listed p self).

Definition touch_released_func (ret : callback -> bool) (status : nat -> Z * Z)
    (p : process) (self : t) : list event :=
  touch_func (on_release self) Button.on_release ret status (listed p self).

(** How many times a trace reads the touch status. *)
Definition tests (es : list event) : nat :=
  length (flat_map (fun e => match e with touch_status => [e] | _ => [] end) es).

(** The two lambdas that [initialize] hands to
    [pros::screen::touch_callback]: they dereference [Brain::instance];
    [None] stands for the dereference of a null pointer. *)
Definition on_touch_pressed (ret : callback -> bool) (status : nat -> Z * Z)
    (p : process) : option (list event) :=
  self ← instance p;
  b ← brains p !! self;
  Some (touch_pressed_func ret status p b).


(** *** Histories of the process *)

Inductive action : Type :=
| NewBrain
| NewButton (text : string) (color bgcolor : Z) (x y w h radius : Z) (big : bool)
| Pressed (self : nat) (f : option callback)
| Released (self : nat) (f : option callback)
| ButtonPressed (button : nat) (f : option callback)
| ButtonReleased (button : nat) (f : option callback).

Definition act (p : process) (a : action) : process :=
  match a with
  | NewBrain => (new p).1
  | NewButton text color bgcolor x y w h radius big =>
      (new_Button text color bgcolor x y w h radius big p).1
  | Pressed self f => pressed self f p
  | Released self f => released self f p
  | ButtonPressed button f => Button_pressed button f p
  | ButtonReleased button f => Button_released button f p
  end.

Definition perform (l : list action) (p : process) : process := foldl act p l.



(** The list of a display holds pointers to constructed widgets, in the
    order of their construction. *)
Definition ordered (p : process) (b : t) : Prop :=
  (forall (i j x y : nat),
     (i < j)%nat -> buttons b !! i = Some x -> buttons b !! j = Some y ->
     (x < y)%nat) /\
  Forall (fun i => (i < length (widgets p))%nat) (buttons b).

(** *** Text on the screen (adlib.cpp, 260-271) *)

(** [print(row, col, color, fmt, ...)] for a whole number of rows and
    columns (the parameters are [double]s; the calls of this library pass
    11 and 0); [expansion] is what [fmt] and its arguments expand to. *)
Definition print (row col : Z) (color : Z) (expansion : string) : list event :=
  [set_pen color;
   screen_print E_TEXT_MEDIUM (col * FONT_W + OFFSET_X) (row * FONT_H + OFFSET_Y)
     (fit 128 expansion)].

(** *** Bitmap blit (adlib.cpp, 287-388) *)

(** The storage card and the files on it. *)
Record storage : Type := mkStorage {
  usd_installed : bool;                        (* pros::usd::is_installed() *)
  files : string -> option (list byte)         (* fopen(name, "rb") *)
}.

Definition uint32 (z : Z) : Z := z mod 2 ^ 32.
Definition int32 (z : Z) : Z := (z + 2 ^ 31) mod 2 ^ 32 - 2 ^ 31.

(** [buf[i]] for a [std::vector<uint8_t>]. *)
Definition u8 (b : byte) : Z := Z.of_N (Byte.to_N b).
Definition byte_at (buf : list byte) (i : Z) : Z :=
  u8 (default x00 (buf !! Z.to_nat i)).

(** [(bgcolor >> shift & 0xff)] *)
Definition channel (bgcolor shift : Z) : Z := Z.land (Z.shiftr bgcolor shift) 255.

(** [src * alpha / 255 + bg * (255 - alpha) / 255], stored in a [uint8_t]. *)
Definition blend (src alpha bg : Z) : Z :=
  ((src * alpha) `quot` 255 + (bg * (255 - alpha)) `quot` 255) mod 256.

(** One iteration of the palette loop.  The loop stores the blended
    channels back into [buf[4+4i]], [buf[4+4i+1]] and [buf[4+4i+2]] before
    it reads them into [palette[i]]; no other iteration and no pixel reads
    these cells, so the iteration is given as a function of the bytes
    read from the file. *)
Definition alpha_entry (buf : list byte) (i : Z) : Z := byte_at buf (4 + i * 4 + 3).

Definition palette_entry (buf : list byte) (bgcolor : Z) (i : Z) : Z :=
  let a := alpha_entry buf i in
  let r := byte_at buf (4 + i * 4) in
  let g := byte_at buf (4 + i * 4 + 1) in
  let b := byte_at buf (4 + i * 4 + 2) in
  let r := if a =? 255 then r else blend r a (channel bgcolor 16) in
  let g := if a =? 255 then g else blend g a (channel bgcolor 8) in
  let b := if a =? 255 then b else blend b a (channel bgcolor 0) in
  Z.lor (Z.lor (Z.shiftl r 16) (Z.shiftl g 8)) b.

(** The two vectors filled by the palette loop. *)
Definition palette_of (buf : list byte) (bgcolor : Z) : list Z :=
  map (fun i : nat => palette_entry buf bgcolor (Z.of_nat i)) (seq 0 256).

Definition alpha_of (buf : list byte) : list Z :=
  map (fun i : nat => alpha_entry buf (Z.of_nat i)) (seq 0 256).

Section Pixels.

Variables (palette alpha : list Z) (x0 y0 w h : Z).

(** The body of the [for] loop over the bytes of a chunk. *)
Definition pixel (st : Z * Z) (index : byte) : (Z * Z) * list event :=
  let '(col, row) := st in
  let i := Z.to_nat (u8 index) in
  let e :=
    if default 0 (alpha !! i) =? 0 then []
    else [set_pen (default 0 (palette !! i)); draw_pixel (col + x0) (row + y0)] in
  let col := col + 1 in
  if w <=? col then ((0, row + 1), e) else ((col, row), e).

Fixpoint pixels (st : Z * Z) (bytes : list byte) : (Z * Z) * list event :=
  match bytes with
  | [] => (st, [])
  | index :: bytes' =>
      let '(st1, e1) := pixel st index in
      let '(st2, e2) := pixels st1 bytes' in
      (st2, e1 ++ e2)
  end.

(** The [while (row < h)] loop, cut after [fuel] iterations ([None] when
    the loop is still running then).  [buf] is what the last [fread] put
    in the buffer, [rest] is what the file still holds. *)
Fixpoint rows (fuel : nat) (buf rest : list byte) (st : Z * Z) :
    option (list event) :=
  match fuel with
  | O => None
  | S fuel' =>
      if st.2 <? h then
        if (st.1 =? 0) && (st.2 =? 0) then
          let '(st1, e1) := pixels st (drop 1028 buf) in
          e2 ← rows fuel' buf rest st1;
          Some (e1 ++ [delay 1] ++ e2)
        else
          let chunk := take 2048 rest in
          if (length chunk =? 0)%nat then Some [fread 2048; fclose; delay 5]
          else
            let '(st1, e1) := pixels st chunk in
            e2 ← rows fuel' chunk (drop 2048 rest) st1;
            Some ([fread 2048] ++ e1 ++ [delay 1] ++ e2)
      else Some [fclose; delay 5]
  end.

End Pixels.

(** Where an image of extent [extent] goes on an axis of length [screen]
    for the anchor [a]. *)
Definition anchor (screen extent a : Z) : Z :=
  if a =? CENTER then (screen - extent) `quot` 2
  else if 0 <=? a then a
  else screen + a - extent.

(** [draw_image(filename, x, y, bgcolor)]; [eraser] is what
    [pros::screen::get_eraser] answers. *)
Definition draw_image (fuel : nat) (sd : storage) (eraser : Z)
    (filename : string) (x y bgcolor : Z) : option (list event) :=
  if negb (usd_installed sd) then Some (print 11 0 0xff0000 "SD Card not found!")
  else
    match files sd filename with
    | None => Some (fopen filename :: print 11 0 0xff0000 "File not found!")
    | Some content =>
        let buf := take 2048 content in
        if (length buf <? 4 + 1024)%nat then
          Some ([fopen filename; fread 2048; fclose]
                  ++ print 11 0 0xff0000 "Invalid image file!")
        else
          let w := Z.lor (Z.shiftl (byte_at buf 0) 8) (byte_at buf 1) in
          let h := Z.lor (Z.shiftl (byte_at buf 2) 8) (byte_at buf 3) in
          let x0 := anchor SCREEN_W w x in
          let y0 := anchor SCREEN_H h y in
          let old_eraser := eraser in
          let '(bgcolor, e0) :=
            if uint32 bgcolor =? 0xffffffff then (int32 old_eraser, [])
            else (bgcolor,
                  [set_eraser (uint32 bgcolor);
                   erase_rect x0 y0 (x0 + w - 1) (y0 + h - 1);
                   set_eraser old_eraser]) in
          e ← rows (palette_of buf bgcolor) (alpha_of buf) x0 y0 w h fuel buf
                (drop 2048 content) (0, 0);
          Some ([fopen filename; fread 2048] ++ e0 ++ e)
    end.

(** *** Device self-check (adlib.cpp, 166-192) *)

Inductive Device : Type := Motor | Imu | Optical | Rotation | Distance | Unknown.

Record DeviceInfo : Type := mkDeviceInfo {
  port : Z;
  type : Device;
  name : string
}.

(** [check_device(port, type)]; [installed kind port] is what
    [pros::Kind(port).is_installed()] answers. *)
Definition check_device (installed : Device -> Z -> bool) (port : Z)
    (type : Device) : bool :=
  match type with
  | Motor => installed Motor port
  | Imu => installed Imu port
  | Optical => installed Optical port
  | Rotation => installed Rotation port
  | Distance => installed Distance port
  | Unknown => false
  end.

(** [self_check(devices)]; [std::to_string] of an [int] is its decimal
    writing. *)
Fixpoint self_check (installed : Device -> Z -> bool)
    (devices : list DeviceInfo) : string :=
  match devices with
  | [] => ""
  | d :: devices' =>
      let port := Z.abs (port d) in
      if negb (check_device installed port (type d)) then
        "Err: [" +:+ pretty port +:+ "] " +:+ name d
      else self_check installed devices'
  end.

(** *** Build time stamp (adlib.cpp, 407-431) *)

(** [isspace] in the C locale. *)
Definition isspace (a : ascii) : bool :=
  let n := N_of_ascii a in (n =? 32)%N || ((9 <=? n)%N && (n <=? 13)%N).

(** [iss >> word]: white space is skipped, then characters are taken up to
    the next white space; the word is empty when the stream is exhausted. *)
Fixpoint skip_ws (l : list ascii) : list ascii :=
  match l with
  | a :: l' => if isspace a then skip_ws l' else l
  | [] => []
  end.

Fixpoint read_word (l : list ascii) : list ascii * list ascii :=
  match l with
  | [] => ([], [])
  | a :: l' =>
      if isspace a then ([], l)
      else let '(w, rest) := read_word l' in (a :: w, rest)
  end.

Definition extract (l : list ascii) : list ascii * list ascii :=
  read_word (skip_ws l).

(** [std::stoi]: white space, an optional sign, then the longest run of
    decimal digits; [None] stands for the exception it throws when there
    is no digit or when the value does not fit an [int]. *)
Definition digit (a : ascii) : option Z :=
  let n := Z.of_N (N_of_ascii a) in
  if (48 <=? n) && (n <=? 57) then Some (n - 48) else None.

Fixpoint leading_digits (acc : option Z) (l : list ascii) : option Z :=
  match l with
  | a :: l' =>
      match digit a with
      | Some d => leading_digits (Some (10 * default 0 acc + d)) l'
      | None => acc
      end
  | [] => acc
  end.

Definition stoi (s : list ascii) : option Z :=
  let s := skip_ws s in
  let '(negative, body) :=
    match s with
    | "-"%char :: body => (true, body)
    | "+"%char :: body => (false, body)
    | _ => (false, s)
    end in
  v ← leading_digits None body;
  let v := if negative then - v else v in
  if (- 2 ^ 31 <=? v) && (v <? 2 ^ 31) then Some v else None.

(** The conversion [%02d] of [sprintf]. *)
Definition d02 (n : Z) : string :=
  if (0 <=? n) && (n <? 10) then "0" +:+ pretty n else pretty n.

Definition months : list string :=
  ["Jan"; "Feb"; "Mar"; "Apr"; "May"; "Jun";
   "Jul"; "Aug"; "Sep"; "Oct"; "Nov"; "Dec"]%string.

(** The [for] loop that finds the month number, from [m] on. *)
Fixpoint month_loop (mmm : string) (m : Z) (names : list string) : Z :=
  match names with
  | [] => m
  | name :: names' =>
      if String.eqb mmm name then m + 1 else month_loop mmm (m + 1) names'
  end.

(** What a call of [get_timestamp] comes to: the text that [sprintf] wrote
    into [buffer] (the function returns a pointer into a temporary copy of
    it), the exception of [std::stoi], or a text that does not fit the 24
    bytes of [buffer]. *)
Inductive stamp : Type :=
  | written (text : string)
  | throws
  | overflows.

Definition get_timestamp (d t : string) : stamp :=
  let '(mmm, l) := extract (c_str (list_ascii_of_string d)) in
  let '(dd, l) := extract l in
  let '(yyyy, _) := extract l in
  let m := month_loop (string_of_list_ascii mmm) 0 months in
  match stoi dd, stoi yyyy with
  | Some day, Some year =>
      let text :=
        (d02 m +:+ "/" +:+ d02 day +:+ "/" +:+ pretty year +:+ " "
           +:+ string_of_list_ascii (c_str (list_ascii_of_string t)))%string in
      if (String.length text <? 24)%nat then written text else overflows
  | _, _ => throws
  end.

(** The events of a trace that draw pixels. *)
Definition drawing (es : list event) : list event :=
  flat_map (fun e => match e with set_pen _ | draw_pixel _ _ => [e] | _ => [] end) es.

End Brain.

(** ** Digital outputs (adlib.cpp, 570-591) *)

Module ADIDigitalOut.

Record t : Type := mk {
  current_value : bool;
  is_reversed : bool
}.

(** The member initialisers of the class. *)
Definition new : t := mk false false.

Definition reverse (status : bool) (d : t) : t := mk (current_value d) status.

(** Each of the three operations returns the new object and the argument
    of its call of [set_value]. *)
Definition press (d : t) : t * bool :=
  (mk true (is_reversed d), if is_reversed d then false else true).

Definition release (d : t) : t * bool :=
  (mk false (is_reversed d), if is_reversed d then true else false).

Definition toggle (d : t) : t * bool :=
  let current_value := negb (current_value d) in
  (mk current_value (is_reversed d),
   if is_reversed d then negb current_value else current_value).

Inductive operation : Type := Reverse (status : bool) | Press | Release | Toggle.

(** A sequence of operations: the final object and the values handed to
    [set_value], in order. *)
Fixpoint operate (l : list operation) (d : t) : t * list bool :=
  match l with
  | [] => (d, [])
  | Reverse status :: l' => operate l' (reverse status d)
  | Press :: l' =>
      let '(d1, v) := press d in
      let '(d2, vs) := operate l' d1 in (d2, v :: vs)
  | Release :: l' =>
      let '(d1, v) := release d in
      let '(d2, vs) := operate l' d1 in (d2, v :: vs)
  | Toggle :: l' =>
      let '(d1, v) := toggle d in
      let '(d2, vs) := operate l' d1 in (d2, v :: vs)
  end.

End ADIDigitalOut.

(** ** Concrete objects for the examples *)

(** A controller whose enumerators have the values 17, 15, 14, 16, 10 to
    13 and 6 to 9, and whose buffer holds the letter x everywhere when it
    is constructed. *)
Definition example_controller : Controller.t :=
  Controller.new 17 15 14 16 10 11 12 13 6 7 8 9 (fun _ _ => "x"%char).

(** The same controller with a press callback on the button 17 and two
    commands waiting in its queue. *)
Definition example_busy : Controller.t :=
  Controller.rumble "-"
    (Controller.print 1 0 "ready"
       (Controller.button_pressed 17 (Some "p") example_controller)).

Definition blanks28 : string := "                            ".

(** Two overlapping widgets, [A] registered before [B], on one display
    without whole-screen callbacks. *)
Definition example_process : Brain.process :=
  Brain.perform
    [Brain.NewBrain;
     Brain.NewButton "A" 0 0 10 10 100 50 3 false;
     Brain.NewButton "B" 0 0 60 30 100 50 3 false;
     Brain.ButtonPressed 0 (Some "a"); Brain.ButtonPressed 1 (Some "b")]
    Brain.start.

(** A 2 by 2 image: entry 0 of the palette is opaque red, entry 1 is a
    fully transparent green, entry 2 a half transparent blue; the pixels
    are 0, 1, 2, 0. *)
Definition example_image : list byte :=
  [x00; x02; x00; x02]
    ++ [xff; x00; x00; xff] ++ [x00; xff; x00; x00] ++ [x00; x00; xff; x80]
    ++ replicate 1012 x00
    ++ [x00; x01; x02; x00].

(** A file that ends with the palette of an image of height 1. *)
Definition header_only : list byte :=
  [x00; x01; x00; x01] ++ replicate 1024 x00.

Definition example_card : Brain.storage :=
  Brain.mkStorage true
    (fun name => if String.eqb name "logo.bin" then Some example_image
                 else if String.eqb name "short.bin" then Some [x00; x02; x00; x02]
                 else None).

Definition bare_card : Brain.storage :=
  Brain.mkStorage true (fun _ => Some header_only).

Definition example_devices : list Brain.DeviceInfo :=
  [Brain.mkDeviceInfo 1 Brain.Motor "left"; Brain.mkDeviceInfo (-2) Brain.Motor "right";
   Brain.mkDeviceInfo 5 Brain.Imu "imu"].

(** * Properties *)

#[local] Ltac Zify.zify_post_hook ::= Z.to_euclidean_division_equations.

(** ** Characters and strings *)

Lemma char_of_int_N (z : Z) :
  Z.of_N (N_of_ascii (char_of_int z)) = z mod 256.
Proof.
  unfold char_of_int. rewrite N_ascii_embedding by lia. lia.
Qed.

Lemma int_of_char_small (cs : bool) (z : Z) :
  0 <= z < 128 -> int_of_char cs (char_of_int z) = z.
Proof.
  intros Hz. unfold int_of_char. rewrite char_of_int_N.
  replace (z mod 256) with z by lia.
  destruct cs; simpl; [|done].
  destruct (128 <=? z) eqn:E; [lia | done].
Qed.

Lemma c_str_app_NUL (l r : list ascii) :
  c_str (c_str l ++ NUL :: r) = c_str l.
Proof.
  induction l as [|a l IH]; simpl; [done|].
  destruct (Ascii.eqb a NUL) eqn:E; simpl; [done|].
  by rewrite E, IH.
Qed.

Lemma c_str_take (n : nat) (l : list ascii) :
  c_str (take n (c_str l)) = take n (c_str l).
Proof.
  revert n. induction l as [|a l IH]; intros n; simpl.
  - by destruct n.
  - destruct (Ascii.eqb a NUL) eqn:E; [by destruct n|].
    destruct n; simpl; [done|]. by rewrite E, IH.
Qed.

Lemma c_str_snprintf (n : nat) (e : string) (r : list ascii) :
  string_of_list_ascii (c_str (snprintf n e ++ r)) = fit n e.
Proof.
  unfold snprintf, fit. rewrite <- (assoc_L (++)). simpl.
  rewrite <- c_str_take. by rewrite c_str_app_NUL.
Qed.

Lemma length_snprintf (n : nat) (e : string) :
  (0 < n -> length (snprintf n e) <= n)%nat.
Proof.
  intros Hn. unfold snprintf. rewrite length_app, length_take. simpl. lia.
Qed.

Lemma length_store (off : nat) (bs a : list ascii) :
  (off + length bs <= length a)%nat -> length (store off bs a) = length a.
Proof.
  intros H. unfold store.
  rewrite !length_app, length_take, length_drop. lia.
Qed.

(** ** The output queue *)

Section Queue.

Import Controller.

Variable cs : bool.

Lemma forward_clear_slot (s : list ascii) :
  (0 < length s)%nat ->
  forward cs (<[0%nat := char_of_int MSG_CLEAR]> s) = [pros_clear].
Proof.
  destruct s as [|a0 s]; simpl; [lia|]. intros _. by destruct cs.
Qed.

Lemma forward_rumble_slot (s : list ascii) (pat : string) :
  (0 < length s)%nat ->
  forward cs (store 1 (snprintf 35 pat) (<[0%nat := char_of_int MSG_RUMBLE]> s))
  = [pros_rumble (fit 35 pat)].
Proof.
  destruct s as [|a0 s]; simpl; [lia|]. intros _.
  unfold forward, store, string_at. simpl. rewrite drop_0.
  rewrite c_str_snprintf. by destruct cs.
Qed.

Lemma forward_text_slot (s : list ascii) (row col : Z) (e : string) :
  (2 < length s)%nat ->
  forward cs
    (store 3 (snprintf 32 e)
       (<[2%nat := char_of_int col]>
          (<[1%nat := char_of_int row]>
             (<[0%nat := char_of_int MSG_TEXT]> s))))
  = [pros_print (cell cs row) (cell cs col) (fit 32 e)].
Proof.
  destruct s as [|a0 [|a1 [|a2 s]]]; simpl; try lia. intros _.
  unfold forward, store, string_at. simpl. rewrite drop_0.
  rewrite c_str_snprintf. by destruct cs.
Qed.

Lemma wf_slot (c : t) (i : Z) :
  wf c -> 0 <= i < MAX_NUM_OF_MSG ->
  buf c !! Z.to_nat i = Some (slot c i) /\ length (slot c i) = 36%nat.
Proof.
  intros (Hlen & Hall & _) Hi. unfold slot, MAX_NUM_OF_MSG in *.
  destruct (buf c !! Z.to_nat i) as [s|] eqn:E.
  - split; [done|]. simpl.
    rewrite Forall_forall in Hall. apply Hall. by eapply list_elem_of_lookup_2.
  - apply lookup_ge_None in E. lia.
Qed.

Lemma slot_put (c : t) (s : list ascii) :
  wf c -> slot (put s c) (wr_ptr c) = s.
Proof.
  intros (Hlen & _ & _ & Hwr). unfold slot, put, MAX_NUM_OF_MSG in *. simpl.
  rewrite list_lookup_insert_eq by lia. done.
Qed.

Lemma slot_put_ne (c : t) (s : list ascii) (i : Z) :
  0 <= wr_ptr c -> 0 <= i -> i <> wr_ptr c -> slot (put s c) i = slot c i.
Proof.
  intros Hwr Hi Hne. unfold slot, put. simpl.
  rewrite list_lookup_insert_ne by lia. done.
Qed.

Lemma put_put (c : t) (s1 s2 : list ascii) : put s2 (put s1 c) = put s2 c.
Proof. unfold put, set_buf. simpl. by rewrite list_insert_insert_eq. Qed.

Lemma wf_put (c : t) (s : list ascii) :
  wf c -> length s = 36%nat -> wf (put s c).
Proof.
  intros (Hlen & Hall & Hrd & Hwr) Hs. unfold wf, put. simpl.
  rewrite length_insert. split; [done|]. split; [|done].
  apply Forall_insert; [done|]. exact Hs.
Qed.

Lemma wf_update_wr_ptr (c : t) : wf c -> wf (update_wr_ptr c).
Proof.
  intros (Hlen & Hall & Hrd & Hwr). unfold wf, update_wr_ptr, MAX_NUM_OF_MSG in *.
  simpl. repeat split; try done; lia.
Qed.

Lemma wf_update_rd_ptr (c : t) : wf c -> wf (update_rd_ptr c).
Proof.
  intros (Hlen & Hall & Hrd & Hwr). unfold wf, update_rd_ptr, MAX_NUM_OF_MSG in *.
  simpl. repeat split; try done; lia.
Qed.

Lemma poke_put (c : t) (s : list ascii) (j : nat) (v : Z) :
  wf c -> poke j v (put s c) = put (<[j := char_of_int v]> s) c.
Proof.
  intros Hwf. unfold poke. change (wr_ptr (put s c)) with (wr_ptr c).
  by rewrite slot_put, put_put.
Qed.

Lemma poke_str_put (c : t) (s bs : list ascii) (j : nat) :
  wf c -> poke_str j bs (put s c) = put (store j bs s) c.
Proof.
  intros Hwf. unfold poke_str. change (wr_ptr (put s c)) with (wr_ptr c).
  by rewrite slot_put, put_put.
Qed.

Lemma print_not_full (c : t) (row col : Z) (e : string) :
  wf c -> is_buf_full c = false ->
  print row col e c =
  update_wr_ptr
    (put (store 3 (snprintf 32 e)
            (<[2%nat := char_of_int col]>
               (<[1%nat := char_of_int row]>
                  (<[0%nat := char_of_int MSG_TEXT]> (slot c (wr_ptr c)))))) c).
Proof.
  intros Hwf Hfull. unfold print. rewrite Hfull.
  unfold poke at 3. by rewrite !poke_put, poke_str_put.
Qed.

Lemma rumble_not_full (c : t) (pat : string) :
  wf c -> is_buf_full c = false ->
  rumble pat c =
  update_wr_ptr
    (put (store 1 (snprintf 35 pat)
            (<[0%nat := char_of_int MSG_RUMBLE]> (slot c (wr_ptr c)))) c).
Proof.
  intros Hwf Hfull. unfold rumble. rewrite Hfull.
  unfold poke. by rewrite poke_str_put.
Qed.

(** A producer call on a buffer that is not full writes one slot, which
    the consumer reads back as the call's command. *)
Lemma produce_not_full (c : t) (p : producer) :
  wf c -> is_buf_full c = false ->
  exists s : list ascii,
    produce p c = update_wr_ptr (put s c) /\
    length s = 36%nat /\
    forward cs s = [command cs p].
Proof.
  intros Hwf Hfull.
  destruct (wf_slot c (wr_ptr c) Hwf) as [_ Hlen]; [apply Hwf|].
  assert (Htext : forall row col e,
    length (store 3 (snprintf 32 e)
       (<[2%nat := char_of_int col]>
          (<[1%nat := char_of_int row]>
             (<[0%nat := char_of_int MSG_TEXT]> (slot c (wr_ptr c)))))) = 36%nat).
  { intros. rewrite length_store; rewrite !length_insert; [done|].
    pose proof (length_snprintf 32 e). lia. }
  destruct p as [row|row col e|pat]; simpl.
  - unfold clear. rewrite Hfull. destruct (row =? -1) eqn:Hrow.
    + eexists. split; [reflexivity|]. split.
      * by rewrite length_insert.
      * apply forward_clear_slot. lia.
    + rewrite print_not_full by done.
      eexists. split; [reflexivity|]. split; [apply Htext|].
      apply forward_text_slot. lia.
  - rewrite print_not_full by done.
    eexists. split; [reflexivity|]. split; [apply Htext|].
    apply forward_text_slot. lia.
  - rewrite rumble_not_full by done.
    eexists. split; [reflexivity|]. split.
    + rewrite length_store; rewrite !length_insert; [done|].
      pose proof (length_snprintf 35 pat). lia.
    + apply forward_rumble_slot. lia.
Qed.

Lemma produce_full (c : t) (p : producer) :
  is_buf_full c = true -> produce p c = c.
Proof.
  intros Hfull. destruct p; simpl; unfold clear, print, rumble; by rewrite Hfull.
Qed.

Lemma holds_produce (c : t) (cmds : list producer) (p : producer) :
  holds cs c cmds -> is_buf_full c = false ->
  holds cs (produce p c) (cmds ++ [p]).
Proof.
  intros (Hwf & Hlen & Hslots) Hfull.
  destruct (produce_not_full c p Hwf Hfull) as (s & -> & Hs & Hfwd).
  pose proof Hwf as (_ & _ & Hrd & Hwr).
  unfold is_buf_full in Hfull. apply Z.eqb_neq in Hfull.
  unfold queue_len, MAX_NUM_OF_MSG in *.
  split; [by apply wf_update_wr_ptr, wf_put|]. split.
  - rewrite length_app. unfold queue_len. simpl. unfold MAX_NUM_OF_MSG. lia.
  - intros k q Hk. simpl.
    change (slot (update_wr_ptr (put s c))) with (slot (put s c)).
    unfold MAX_NUM_OF_MSG.
    destruct (decide (k < length cmds)%nat) as [Hlt|Hge].
    + rewrite lookup_app_l in Hk by done.
      rewrite slot_put_ne by lia. by apply Hslots.
    + apply lookup_lt_Some in Hk as Hk'. rewrite length_app in Hk'. simpl in Hk'.
      assert (k = length cmds) as -> by lia.
      rewrite list_lookup_middle in Hk by done. injection Hk as <-.
      replace ((rd_ptr c + Z.of_nat (length cmds)) mod 8) with (wr_ptr c) by lia.
      by rewrite slot_put.
Qed.

Lemma holds_drain (c : t) (cmds : list producer) :
  holds cs c cmds -> is_buf_empty c = false ->
  exists (p : producer) (cmds' : list producer),
    cmds = p :: cmds' /\
    forward cs (slot c (rd_ptr c)) = [command cs p] /\
    holds cs (update_rd_ptr c) cmds'.
Proof.
  intros (Hwf & Hlen & Hslots) Hempty.
  pose proof Hwf as (_ & _ & Hrd & Hwr).
  unfold is_buf_empty in Hempty. apply Z.eqb_neq in Hempty.
  unfold queue_len, MAX_NUM_OF_MSG in *.
  destruct cmds as [|p cmds']; simpl in Hlen; [lia|].
  exists p, cmds'. split; [done|]. split.
  - specialize (Hslots 0%nat p eq_refl).
    replace ((rd_ptr c + Z.of_nat 0) mod 8) with (rd_ptr c) in Hslots by lia.
    done.
  - split; [by apply wf_update_rd_ptr|]. split.
    + unfold queue_len. simpl. unfold MAX_NUM_OF_MSG. lia.
    + intros k q Hk. specialize (Hslots (S k) q Hk). simpl.
      change (slot (update_rd_ptr c)) with (slot c). unfold MAX_NUM_OF_MSG.
      replace (((rd_ptr c + 1) `rem` 8 + Z.of_nat k) mod 8)
        with ((rd_ptr c + Z.of_nat (S k)) mod 8) by lia.
      done.
Qed.

Lemma holds_empty (c : t) (cmds : list producer) :
  holds cs c cmds -> is_buf_empty c = true -> cmds = [].
Proof.
  intros (Hwf & Hlen & _) Hempty.
  unfold is_buf_empty in Hempty. apply Z.eqb_eq in Hempty.
  unfold queue_len, MAX_NUM_OF_MSG in *. rewrite Hempty in Hlen.
  destruct cmds; [done|]. simpl in Hlen. lia.
Qed.

Lemma holds_pending (c : t) (cmds : list producer) :
  holds cs c cmds -> pending cs c = map (command cs) cmds.
Proof.
  intros (_ & Hlen & Hslots). unfold pending. rewrite <- Hlen.
  set (f := fun k : nat => forward cs (slot c ((rd_ptr c + Z.of_nat k) mod MAX_NUM_OF_MSG))).
  change (forall k p, cmds !! k = Some p -> f k = [command cs p]) in Hslots.
  clearbody f. clear Hlen.
  assert (Hgen : forall (l : list producer) (i : nat),
    (forall k p, l !! k = Some p -> f (i + k)%nat = [command cs p]) ->
    flat_map f (seq i (length l)) = map (command cs) l).
  { clear. induction l as [|p l IH]; intros i Hi; simpl; [done|].
    pose proof (Hi 0%nat p eq_refl) as H0.
    replace (i + 0)%nat with i in H0 by lia. rewrite H0.
    simpl. f_equal. apply IH.
    intros k q Hk. replace (S i + k)%nat with (i + S k)%nat by lia.
    by apply Hi. }
  by apply Hgen.
Qed.

(** The state reached by a run stores what was accepted and not yet
    forwarded. *)
Lemma run_holds (l : list call) (c : t) (cmds : list producer) :
  holds cs c cmds ->
  exists cmds' : list producer,
    holds cs (run cs l c).1 cmds' /\
    map (command cs) (cmds ++ accepted cs l c)
    = (run cs l c).2 ++ map (command cs) cmds'.
Proof.
  revert c cmds. induction l as [|o l IH]; intros c cmds Hc; simpl.
  - exists cmds. by rewrite app_nil_r.
  - destruct o as [p|]; simpl.
    + destruct (is_buf_full c) eqn:Hfull.
      * rewrite produce_full by done.
        destruct (IH c cmds Hc) as (cmds' & H1 & H2).
        destruct (run cs l c) as [c2 e2]. by exists cmds'.
      * destruct (IH _ _ (holds_produce c cmds p Hc Hfull)) as (cmds' & H1 & H2).
        destruct (run cs l (produce p c)) as [c2 e2].
        exists cmds'. split; [done|]. simpl in *.
        by rewrite <- H2, <- (assoc_L (++)).
    + unfold print_process. destruct (is_buf_empty c) eqn:Hempty.
      * destruct (IH c cmds Hc) as (cmds' & H1 & H2).
        destruct (run cs l c) as [c2 e2]. by exists cmds'.
      * destruct (holds_drain c cmds Hc Hempty) as (p & cmds1 & -> & Hfwd & Hc1).
        destruct (IH _ _ Hc1) as (cmds' & H1 & H2).
        destruct (run cs l (update_rd_ptr c)) as [c2 e2].
        exists cmds'. split; [done|]. simpl in *.
        rewrite Hfwd. simpl. by rewrite <- H2.
Qed.

Lemma holds_bounds (c : t) (cmds : list producer) :
  holds cs c cmds ->
  (length cmds <= 7)%nat /\
  (is_buf_full c = true <-> length cmds = 7%nat) /\
  (is_buf_empty c = true <-> cmds = []).
Proof.
  intros Hc. pose proof Hc as ((_ & _ & Hrd & Hwr) & Hlen & _).
  unfold queue_len, is_buf_full, is_buf_empty, MAX_NUM_OF_MSG in *.
  split; [lia|]. split.
  - rewrite Z.eqb_eq. lia.
  - rewrite Z.eqb_eq. split.
    + intros E. destruct cmds; [done|]. simpl in Hlen. lia.
    + intros ->. simpl in Hlen. lia.
Qed.

Lemma run_app (l1 l2 : list call) (c : t) :
  run cs (l1 ++ l2) c =
  ((run cs l2 (run cs l1 c).1).1, (run cs l1 c).2 ++ (run cs l2 (run cs l1 c).1).2).
Proof.
  revert c. induction l1 as [|o l1 IH]; intros c; simpl.
  - by destruct (run cs l2 c).
  - destruct (step cs o c) as [c1 e1]. rewrite IH.
    destruct (run cs l1 c1) as [c2 e2]. simpl.
    by rewrite (assoc_L (++)).
Qed.

(** Draining [n] times forwards everything a queue of at most [n] entries
    stores, and leaves it empty. *)
Lemma drain_all (n : nat) (c : t) (cmds : list producer) :
  holds cs c cmds -> (length cmds <= n)%nat ->
  (run cs (replicate n PrintProcess) c).2 = map (command cs) cmds /\
  holds cs (run cs (replicate n PrintProcess) c).1 [].
Proof.
  revert c cmds. induction n as [|n IH]; intros c cmds Hc Hn.
  - destruct cmds; simpl in *; [done | lia].
  - simpl. unfold print_process. destruct (is_buf_empty c) eqn:Hempty.
    + pose proof (holds_empty c cmds Hc Hempty) as ->.
      destruct (IH c [] Hc) as [H1 H2]; [simpl; lia|].
      destruct (run cs (replicate n PrintProcess) c). done.
    + destruct (holds_drain c cmds Hc Hempty) as (p & cmds1 & -> & Hfwd & Hc1).
      destruct (IH _ _ Hc1) as [H1 H2]; [simpl in Hn; lia|].
      destruct (run cs (replicate n PrintProcess) (update_rd_ptr c)).
      simpl in *. rewrite Hfwd. simpl. by rewrite H1.
Qed.

Lemma accepted_app (l1 l2 : list call) (c : t) :
  accepted cs (l1 ++ l2) c = accepted cs l1 c ++ accepted cs l2 (run cs l1 c).1.
Proof.
  revert c. induction l1 as [|o l1 IH]; intros c; simpl; [done|].
  rewrite IH, <- (assoc_L (++)).
  destruct (step cs o c) as [c1 e1]. simpl.
  by destruct (run cs l1 c1).
Qed.

(** Producer calls that find room are all stored, and forward nothing. *)
Lemma run_produce_room (ps : list producer) (c : t) (cmds : list producer) :
  holds cs c cmds -> (length cmds + length ps <= 7)%nat ->
  holds cs (run cs (map Produce ps) c).1 (cmds ++ ps) /\
  accepted cs (map Produce ps) c = ps /\
  (run cs (map Produce ps) c).2 = [].
Proof.
  revert c cmds. induction ps as [|p ps IH]; intros c cmds Hc Hlen; simpl.
  - by rewrite app_nil_r.
  - simpl in Hlen.
    destruct (holds_bounds c cmds Hc) as (_ & Hfull & _).
    destruct (is_buf_full c) eqn:E.
    { assert (length cmds = 7%nat) by by apply Hfull. lia. }
    destruct (IH _ _ (holds_produce c cmds p Hc E)) as (H1 & H2 & H3).
    { rewrite length_app. simpl. lia. }
    destruct (run cs (map Produce ps) (produce p c)) as [c2 e2]. simpl in *.
    rewrite <- (assoc_L (++)) in H1. simpl in H1. by rewrite H2.
Qed.

Section Constructed.

Variables BUTTON_A BUTTON_B BUTTON_X BUTTON_Y : Z.
Variables BUTTON_UP BUTTON_DOWN BUTTON_LEFT BUTTON_RIGHT : Z.
Variables BUTTON_L1 BUTTON_L2 BUTTON_R1 BUTTON_R2 : Z.
Variable memory : nat -> nat -> ascii.

Let c0 : t :=
  new BUTTON_A BUTTON_B BUTTON_X BUTTON_Y BUTTON_UP BUTTON_DOWN BUTTON_LEFT
    BUTTON_RIGHT BUTTON_L1 BUTTON_L2 BUTTON_R1 BUTTON_R2 memory.

Lemma new_holds : holds cs c0 [].
Proof.
  split; [|split].
  - unfold wf, c0, new, MAX_NUM_OF_MSG, MAX_MSG_LEN. simpl.
    split; [done|]. split; [|lia].
    repeat constructor.
  - done.
  - intros k p Hk. done.
Qed.

(** C1, as amended.  Along every run of producer calls and
    [print_process] calls on a freshly constructed controller, the commands
    forwarded to the output link, followed by the commands the buffer still
    holds, are exactly the producer calls made while the buffer was not
    full, in call order: nothing is reordered across the kinds, duplicated
    or lost.  The buffer holds no command exactly when it is empty, and
    seven further [print_process] calls forward all that is left, so that
    the forwarded commands are then the accepted calls, in number and in
    order. *)
Theorem queue_fifo (l : list call) :
  (run cs l c0).2 ++ pending cs (run cs l c0).1
    = map (command cs) (accepted cs l c0) /\
  (is_buf_empty (run cs l c0).1 = true <-> pending cs (run cs l c0).1 = []) /\
  (run cs (l ++ replicate 7 PrintProcess) c0).2
    = map (command cs) (accepted cs l c0).
Proof.
  destruct (run_holds l c0 [] new_holds) as (cmds & Hc & Hrun).
  pose proof (holds_pending _ _ Hc) as Hp.
  pose proof (holds_bounds _ _ Hc) as (Hle & _ & Hempty).
  simpl in Hrun. rewrite Hp. split; [done|]. split.
  - rewrite Hempty. split; [by intros ->|].
    intros E. by destruct cmds.
  - rewrite run_app. cbn [fst snd].
    destruct (drain_all 7 _ _ Hc Hle) as [-> _]. done.
Qed.

(** C2.  After every operation of a run the indices stay inside the eight
    slots; the buffer reports full exactly when [(wr_ptr + 1) mod 8 ==
    rd_ptr], which is exactly when it holds seven entries, and empty exactly
    when [rd_ptr == wr_ptr], which is exactly when it holds none; it never
    holds more than seven.  From an empty buffer, seven producer calls in
    a row all store their command, and an eighth one is dropped: it leaves
    the object unchanged, holding the seven entries, not empty. *)
Theorem ring_buffer_invariant (l : list call) (p1 p2 p3 p4 p5 p6 p7 p8 : producer) :
  let c := (run cs l c0).1 in
  let e := (run cs (l ++ replicate 7 PrintProcess) c0).1 in
  let ps := [p1; p2; p3; p4; p5; p6; p7] in
  let c7 := (run cs (map Produce ps) e).1 in
  (0 <= rd_ptr c < 8 /\ 0 <= wr_ptr c < 8) /\
  (is_buf_full c = true <-> (wr_ptr c + 1) mod 8 = rd_ptr c) /\
  (is_buf_empty c = true <-> rd_ptr c = wr_ptr c) /\
  (is_buf_full c = true <-> length (pending cs c) = 7%nat) /\
  (is_buf_empty c = true <-> length (pending cs c) = 0%nat) /\
  (length (pending cs c) <= 7)%nat /\
  length (pending cs c) = (length (accepted cs l c0) - length (run cs l c0).2)%nat /\
  is_buf_empty e = true /\
  accepted cs (map Produce (ps ++ [p8])) e = ps /\
  pending cs c7 = map (command cs) ps /\
  is_buf_full c7 = true /\
  is_buf_empty c7 = false /\
  produce p8 c7 = c7 /\
  (run cs (map Produce (ps ++ [p8])) e).1 = c7.
Proof.
  intros c e ps c7.
  destruct (run_holds l c0 [] new_holds) as (cmds & Hc & Hrun).
  fold c in Hc.
  pose proof (holds_pending _ _ Hc) as Hp.
  pose proof (holds_bounds _ _ Hc) as (Hle & Hfull & Hempty).
  pose proof Hc as ((_ & _ & Hrd & Hwr) & _).
  simpl in Hrun.
  assert (He : holds cs e []).
  { unfold e. rewrite run_app. cbn [fst snd]. by destruct (drain_all 7 _ _ Hc Hle). }
  destruct (run_produce_room ps e [] He) as (Hc7 & Hacc & _); [simpl; lia|].
  fold c7 in Hc7. simpl app in Hc7.
  pose proof (holds_bounds _ _ Hc7) as (_ & Hfull7 & Hempty7).
  assert (F7 : is_buf_full c7 = true) by by apply Hfull7.
  rewrite Hp, length_map.
  split; [done|]. split.
  { unfold is_buf_full, MAX_NUM_OF_MSG. rewrite Z.eqb_eq. lia. }
  split; [unfold is_buf_empty; by rewrite Z.eqb_eq|].
  split; [done|]. split.
  { rewrite Hempty. split; [by intros ->|]. intros E. by destruct cmds. }
  split; [done|]. split.
  { apply (f_equal length) in Hrun. rewrite length_app, !length_map in Hrun. lia. }
  split; [by apply (holds_bounds _ _ He)|]. split.
  { rewrite map_app, accepted_app, Hacc. fold c7. simpl. by rewrite F7. }
  split; [by apply holds_pending|]. split; [done|]. split.
  { destruct (is_buf_empty c7) eqn:E; [|done].
    assert (ps = []) by by apply Hempty7. done. }
  split; [by apply produce_full|].
  rewrite map_app, run_app. fold c7. simpl. by rewrite produce_full.
Qed.

(** C5, as amended.  For every row [r] other than -1, [clear(r)] is
    [print(r, 0, "%28s", "")] in every reachable state: on a full buffer it
    stores nothing, and otherwise it adds, behind what the buffer holds,
    one Text command (never a Clear command) of exactly 28 spaces at column
    0 whose row is the [char] that [r] converts to, which is [r] itself
    for rows 0 to 127.  [clear()] with the default row -1 adds one Clear
    command on a buffer that is not full. *)
Theorem clear_row_is_print_blanks (l : list call) (r : Z) :
  let c := (run cs l c0).1 in
  r <> -1 ->
  clear r c = print r 0 (format_width_s 28 "") c /\
  format_width_s 28 "" = blanks28 /\
  String.length blanks28 = 28%nat /\
  (is_buf_full c = true -> clear r c = c) /\
  (is_buf_full c = false ->
     pending cs (clear r c) = pending cs c ++ [pros_print (cell cs r) 0 blanks28] /\
     pending cs (clear (-1) c) = pending cs c ++ [pros_clear]) /\
  (0 <= r < 128 -> cell cs r = r).
Proof.
  intros c Hr.
  destruct (run_holds l c0 [] new_holds) as (cmds & Hc & _). fold c in Hc.
  assert (Hneq : (r =? -1) = false) by by apply Z.eqb_neq.
  split.
  { unfold clear at 1. rewrite Hneq.
    destruct (is_buf_full c) eqn:E; [|done]. unfold print. by rewrite E. }
  split; [done|]. split; [done|]. split.
  { intros E. apply (produce_full c (Clear r) E). }
  split; [|apply int_of_char_small].
  intros E. rewrite (holds_pending _ _ Hc). split.
  - change (clear r c) with (produce (Clear r) c).
    rewrite (holds_pending _ _ (holds_produce c cmds (Clear r) Hc E)).
    rewrite map_app. simpl. rewrite Hneq.
    unfold cell at 2. by rewrite int_of_char_small by lia.
  - change (clear (-1) c) with (produce (Clear (-1)) c).
    by rewrite (holds_pending _ _ (holds_produce c cmds (Clear (-1)) Hc E)), map_app.
Qed.

End Constructed.

End Queue.

(** C1 fails as it is stated: after one [print] call on an empty buffer and
    no [print_process] call, one producer call was made while the buffer
    was not full and nothing has been forwarded. *)
Lemma print_without_drain_forwards_nothing :
  let l := [Controller.Produce (Controller.Print 0 0 "hi")] in
  (Controller.run false l example_controller).2 = [] /\
  Controller.accepted false l example_controller = [Controller.Print 0 0 "hi"] /\
  length (Controller.run false l example_controller).2
    <> length (Controller.accepted false l example_controller).
Proof. vm_compute. repeat split; [done..|lia]. Qed.

(** C5 fails as it is stated: the row is stored in one [char], so
    [clear(256)] is forwarded as a print on row 0, not on row 256, whatever
    the signedness of [char]; and on a full buffer [clear(3)] stores
    nothing. *)
Lemma clear_row_256_lands_on_row_0 :
  (Controller.print_process true (Controller.clear 256 example_controller)).2
    = [pros_print 0 0 blanks28] /\
  (Controller.print_process false (Controller.clear 256 example_controller)).2
    = [pros_print 0 0 blanks28] /\
  (let full := (Controller.run false
                  (replicate 7 (Controller.Produce (Controller.Rumble "-")))
                  example_controller).1 in
   Controller.is_buf_full full = true /\ Controller.clear 3 full = full).
Proof. vm_compute. done. Qed.

(** A use of [clear_row_is_print_blanks]: row 3 of a fresh controller. *)
Lemma clear_row_is_print_blanks_witness :
  3 <> -1 /\
  Controller.pending false (Controller.clear 3 example_controller)
    = [pros_print 3 0 blanks28].
Proof.
  assert (H : 3 <> -1) by lia. split; [exact H|].
  pose proof (clear_row_is_print_blanks false 17 15 14 16 10 11 12 13 6 7 8 9
                (fun _ _ => "x"%char) [] 3 H) as (_ & _ & _ & _ & Hp & _).
  destruct (Hp eq_refl) as [Hp1 _]. exact Hp1.
Defined.

(** ** Button edge detection *)

Section Buttons.

Import Controller.

Lemma button_iteration_spec (levels : Z -> bool) (b : ButtonStruct) :
  button_iteration levels b =
  (set_last_state (levels (id b)) b,
   get_digital (id b)
     :: map invoke (edge (last_state b) (levels (id b)) (on_press b) (on_release b))).
Proof.
  destruct b as [i last fp fr]. unfold button_iteration, set_last_state. simpl.
  destruct (levels i), last; simpl; try done.
  - by destruct fp.
  - by destruct fr.
Qed.

Lemma button_loop_spec (levels : Z -> bool) (bs : list ButtonStruct) :
  button_loop levels bs =
  (map (fun b => set_last_state (levels (id b)) b) bs,
   flat_map (fun b => get_digital (id b)
     :: map invoke (edge (last_state b) (levels (id b)) (on_press b) (on_release b))) bs).
Proof.
  induction bs as [|b bs IH]; simpl; [done|].
  by rewrite button_iteration_spec, IH.
Qed.

Lemma invoked_app (e1 e2 : list event) :
  invoked (e1 ++ e2) = invoked e1 ++ invoked e2.
Proof. unfold invoked. by rewrite flat_map_app. Qed.

Lemma reads_app (e1 e2 : list event) : reads (e1 ++ e2) = reads e1 ++ reads e2.
Proof. unfold reads. by rewrite flat_map_app. Qed.

Lemma invoked_map_invoke (fs : list callback) : invoked (map invoke fs) = fs.
Proof. induction fs as [|f fs IH]; simpl; [done|]. by f_equal. Qed.

Lemma reads_map_invoke (fs : list callback) : reads (map invoke fs) = [].
Proof. by induction fs. Qed.

(** One pass: every entry is read once, in vector order; an entry invokes
    a callback exactly on an edge between its remembered level and the
    sampled one; afterwards every entry remembers the sampled level. *)
Lemma button_process_spec (levels : Z -> bool) (c : t) :
  buttons (button_process levels c).1
    = map (fun b => set_last_state (levels (id b)) b) (buttons c) /\
  invoked (button_process levels c).2
    = flat_map (fun b => edge (last_state b) (levels (id b)) (on_press b) (on_release b))
        (buttons c) /\
  reads (button_process levels c).2 = map id (buttons c).
Proof.
  unfold button_process. rewrite button_loop_spec. simpl. split; [done|].
  induction (buttons c) as [|b bs [IH1 IH2]]; simpl; [done|].
  rewrite invoked_app, reads_app, invoked_map_invoke, reads_map_invoke.
  by rewrite IH1, IH2.
Qed.

Lemma quiet_flat_map (levels : Z -> bool) (bs : list ButtonStruct) :
  Forall quiet bs ->
  flat_map (fun b => edge (last_state b) (levels (id b)) (on_press b) (on_release b)) bs
  = [].
Proof.
  induction 1 as [|b bs [Hp Hr] _ IH]; simpl; [done|].
  rewrite Hp, Hr, IH. by destruct (last_state b), (levels (id b)).
Qed.

Lemma quiet_sampled (levels : Z -> bool) (bs : list ButtonStruct) :
  Forall quiet bs ->
  Forall quiet (map (fun b => set_last_state (levels (id b)) b) bs).
Proof.
  intros H. apply Forall_fmap. eapply Forall_impl; [exact H|].
  by intros b [Hp Hr].
Qed.

Lemma armed_pass (button : Z) (fp fr : option callback) (prev : bool)
    (levels : Z -> bool) (c : t) :
  armed button fp fr prev (buttons c) ->
  invoked (button_process levels c).2 = edge prev (levels button) fp fr /\
  armed button fp fr (levels button) (buttons (button_process levels c).1).
Proof.
  intros (pre & b & post & Hbs & Hpre & Hpost & Hid & Hlast & Hfp & Hfr).
  destruct (button_process_spec levels c) as (-> & -> & _). rewrite Hbs. split.
  - rewrite flat_map_app. simpl.
    rewrite !quiet_flat_map by done. rewrite Hid, Hlast, Hfp, Hfr.
    by rewrite app_nil_r.
  - exists (map (fun b => set_last_state (levels (id b)) b) pre),
      (set_last_state (levels (id b)) b),
      (map (fun b => set_last_state (levels (id b)) b) post).
    rewrite map_app. simpl. rewrite Hid.
    repeat split; try done; by apply quiet_sampled.
Qed.

Lemma armed_polls (button : Z) (fp fr : option callback)
    (samples : list (Z -> bool)) (prev : bool) (c : t) :
  armed button fp fr prev (buttons c) ->
  map invoked (button_polls samples c).2
  = edges prev (map (fun s => s button) samples) fp fr.
Proof.
  revert prev c. induction samples as [|s samples IH]; intros prev c Hc; simpl; [done|].
  destruct (armed_pass button fp fr prev s c Hc) as [H1 H2].
  destruct (button_process s c) as [c1 e1]. simpl in *.
  specialize (IH _ _ H2).
  destruct (button_polls samples c1) as [c2 es]. simpl in *.
  by rewrite H1, IH.
Qed.

Lemma register_split (set : ButtonStruct -> ButtonStruct) (button : Z)
    (pre : list ButtonStruct) (b : ButtonStruct) (post : list ButtonStruct) :
  Forall (fun x => id x <> button) pre -> id b = button ->
  register set button (pre ++ b :: post) = pre ++ set b :: post.
Proof.
  intros Hpre Hb. induction Hpre as [|x pre Hx _ IH]; simpl.
  - apply Z.eqb_eq in Hb. by rewrite Hb.
  - apply Z.eqb_neq in Hx. by rewrite Hx, IH.
Qed.

Lemma first_entry (button : Z) (bs : list ButtonStruct) :
  button ∈ map id bs ->
  exists pre b post,
    bs = pre ++ b :: post /\ Forall (fun x => id x <> button) pre /\ id b = button.
Proof.
  induction bs as [|x bs IH]; simpl; intros Hin.
  - by apply elem_of_nil in Hin.
  - destruct (decide (id x = button)) as [E|N].
    + by exists [], x, bs.
    + apply elem_of_cons in Hin as [E|Hin]; [done|].
      destruct (IH Hin) as (pre & b & post & -> & Hpre & Hb).
      exists (x :: pre), b, post. repeat split; try done. by constructor.
Qed.

Lemma register_armed (bs : list ButtonStruct) (button : Z)
    (fp fr : option callback) :
  button ∈ map id bs ->
  Forall (fun b => quiet b /\ last_state b = false) bs ->
  armed button fp fr false
    (register (set_on_release fr) button (register (set_on_press fp) button bs)).
Proof.
  intros Hin Hq.
  destruct (first_entry button _ Hin) as (pre & b & post & -> & Hpre & Hb).
  rewrite register_split by done. rewrite register_split by done.
  apply Forall_app in Hq as [Hq1 Hq2]. apply Forall_cons in Hq2 as [[_ Hl] Hq2].
  exists pre, (set_on_release fr (set_on_press fp b)), post.
  repeat split; try done.
  - eapply Forall_impl; [exact Hq1|]. by intros x [H _].
  - eapply Forall_impl; [exact Hq2|]. by intros x [H _].
Qed.

Section Constructed.

Variables BUTTON_A BUTTON_B BUTTON_X BUTTON_Y : Z.
Variables BUTTON_UP BUTTON_DOWN BUTTON_LEFT BUTTON_RIGHT : Z.
Variables BUTTON_L1 BUTTON_L2 BUTTON_R1 BUTTON_R2 : Z.
Variable memory : nat -> nat -> ascii.

Let twelve : list Z :=
  [BUTTON_A; BUTTON_B; BUTTON_X; BUTTON_Y; BUTTON_UP; BUTTON_DOWN;
   BUTTON_LEFT; BUTTON_RIGHT; BUTTON_L1; BUTTON_L2; BUTTON_R1; BUTTON_R2].

Let c0 : t :=
  new BUTTON_A BUTTON_B BUTTON_X BUTTON_Y BUTTON_UP BUTTON_DOWN BUTTON_LEFT
    BUTTON_RIGHT BUTTON_L1 BUTTON_L2 BUTTON_R1 BUTTON_R2 memory.

Lemma new_quiet :
  Forall (fun b => quiet b /\ last_state b = false) (buttons c0) /\
  map id (buttons c0) = twelve.
Proof. split; [|done]. repeat constructor. Qed.

Lemma registered_armed (button : Z) (fp fr : option callback) :
  button ∈ twelve ->
  armed button fp fr false
    (buttons (button_released button fr (button_pressed button fp c0))).
Proof.
  intros Hin. destruct new_quiet as [Hq Hids]. rewrite <- Hids in Hin.
  unfold button_released, button_pressed, set_buttons. cbn [buttons].
  by apply register_armed.
Qed.

(** C3, as amended.  With a press callback [p] and a release callback [r]
    registered for one of the twelve buttons of a fresh controller, the
    callbacks invoked by successive passes of [button_process] are those
    of the edges of the sampled level of that button, the level before
    the first sample counting as false: for the levels false, false, true,
    true, false the press callback is invoked exactly once, on the third
    sample (the first one that reads true), and the release callback
    exactly once, on the fifth; a level that stays false invokes nothing.
    In general one pass reads every entry once, invokes for an entry its
    press callback exactly on a rise and its release callback exactly on a
    fall from the level it remembers, and leaves every entry remembering
    the sampled level. *)
Theorem button_edges (button : Z) (p r : callback) (samples : list (Z -> bool)) :
  button ∈ twelve ->
  let c := button_released button (Some r) (button_pressed button (Some p) c0) in
  let levels := map (fun s => s button) samples in
  let fired := map invoked (button_polls samples c).2 in
  fired = edges false levels (Some p) (Some r) /\
  (levels = [false; false; true; true; false] -> fired = [[]; []; [p]; []; [r]]) /\
  (forall n : nat, levels = replicate n false -> fired = replicate n []) /\
  (forall (c' : t) (lv : Z -> bool),
     buttons (button_process lv c').1
       = map (fun b => set_last_state (lv (id b)) b) (buttons c') /\
     invoked (button_process lv c').2
       = flat_map
           (fun b => edge (last_state b) (lv (id b)) (on_press b) (on_release b))
           (buttons c') /\
     reads (button_process lv c').2 = map id (buttons c')).
Proof.
  intros Hin c levels fired.
  assert (H : fired = edges false levels (Some p) (Some r)).
  { apply armed_polls. by apply registered_armed. }
  split; [done|]. split; [by intros E; rewrite H, E|]. split.
  - intros n E. rewrite H, E. clear.
    induction n as [|n IH]; simpl; [done|]. by rewrite IH.
  - intros c' lv. apply button_process_spec.
Qed.

End Constructed.

End Buttons.

(** C3 fails as it is stated: for the levels false, false, true, true,
    false the second pass invokes nothing and the press callback is
    invoked by the third pass; and a level that is true from the first
    sample on invokes the press callback on the first pass. *)
Lemma press_fires_on_third_sample :
  let c := Controller.button_released 17 (Some "r")
             (Controller.button_pressed 17 (Some "p") example_controller) in
  map Controller.invoked
    (Controller.button_polls
       (map (fun (lv : bool) (_ : Z) => lv) [false; false; true; true; false]) c).2
    = [[]; []; ["p"]; []; ["r"]] /\
  map Controller.invoked
    (Controller.button_polls
       (map (fun (lv : bool) (_ : Z) => lv) [true; true; true]) c).2
    = [["p"]; []; []].
Proof. vm_compute. done. Qed.

(** A use of [button_edges]: button 17 of the example controller. *)
Lemma button_edges_witness :
  17 ∈ [17; 15; 14; 16; 10; 11; 12; 13; 6; 7; 8; 9] /\
  map Controller.invoked
    (Controller.button_polls
       (map (fun (lv : bool) (_ : Z) => lv) [false; false; true; true; false])
       (Controller.button_released 17 (Some "r")
          (Controller.button_pressed 17 (Some "p") example_controller))).2
    = Controller.edges false [false; false; true; true; false] (Some "p") (Some "r").
Proof.
  assert (H : 17 ∈ [17; 15; 14; 16; 10; 11; 12; 13; 6; 7; 8; 9])
    by constructor.
  split; [exact H|].
  exact (proj1 (button_edges 17 15 14 16 10 11 12 13 6 7 8 9
                  (fun _ _ => "x"%char) 17 "p" "r"
                  (map (fun (lv : bool) (_ : Z) => lv) [false; false; true; true; false])
                  H)).
Defined.

(** ** The background task *)

Section Task.

Import Controller.

Variable cs : bool.

Lemma even_mod (k : nat) : (Z.of_nat k mod 2 =? 0) = Nat.even k.
Proof.
  assert (H : (Z.of_nat k mod 2 =? 0) = Nat.even k /\
              (Z.of_nat (S k) mod 2 =? 0) = Nat.even (S k)); [|by destruct H].
  induction k as [|k [IH1 IH2]]; [done|]. split; [done|].
  change (Nat.even (S (S k))) with (Nat.even k). rewrite <- IH1.
  f_equal. lia.
Qed.

Lemma task_iteration_cycle (k : nat) (levels : Z -> bool) (c : t) :
  task_iteration cs levels (Z.of_nat k mod 2, c) =
  ((Z.of_nat (S k) mod 2, (cycle cs (Nat.even k) levels c).1),
   (cycle cs (Nat.even k) levels c).2).
Proof.
  unfold task_iteration, cycle. rewrite even_mod.
  destruct (button_process levels c) as [c1 e1].
  destruct (if Nat.even k then print_process cs c1 else (c1, [])) as [c2 e2].
  simpl. do 2 f_equal. lia.
Qed.

(** The loop with its counter is the poller indexed by the cycle number. *)
Lemma task_loop_poller (samples : list (Z -> bool)) (k : nat) (c : t) :
  task_loop cs samples (Z.of_nat k mod 2, c) =
  ((Z.of_nat (k + length samples) mod 2, (poller cs k samples c).1),
   (poller cs k samples c).2).
Proof.
  revert k c. induction samples as [|s samples IH]; intros k c; cbn [task_loop poller].
  - by rewrite Nat.add_0_r.
  - rewrite task_iteration_cycle.
    destruct (cycle cs (Nat.even k) s c) as [c1 e1]. simpl.
    rewrite IH. destruct (poller cs (S k) samples c1) as [c2 e2]. simpl.
    do 3 f_equal. lia.
Qed.

Lemma task_loop_app (a b : list (Z -> bool)) (st : Z * t) :
  task_loop cs (a ++ b) st =
  ((task_loop cs b (task_loop cs a st).1).1,
   (task_loop cs a st).2 ++ (task_loop cs b (task_loop cs a st).1).2).
Proof.
  revert st. induction a as [|s a IH]; intros st; cbn [task_loop app].
  - simpl. by destruct (task_loop cs b st).
  - destruct (task_iteration cs s st) as [st1 e1]. rewrite IH.
    destruct (task_loop cs a st1) as [st2 e2]. simpl.
    by rewrite (assoc_L (++)).
Qed.

(** Two consecutive iterations of the loop, the first of number [k]. *)
Lemma task_loop_two (k : nat) (s1 s2 : Z -> bool) (post : list (Z -> bool)) (q : t) :
  let first := Nat.even k in
  let qa := (button_process s1 q).1 in
  let qb := if first then (print_process cs qa).1 else qa in
  let qc := (button_process s2 qb).1 in
  let qd := if first then qc else (print_process cs qc).1 in
  task_loop cs (s1 :: s2 :: post) (Z.of_nat k mod 2, q) =
    ((task_loop cs post (Z.of_nat k mod 2, qd)).1,
     ((button_process s1 q).2
        ++ (if first then (print_process cs qa).2 else []) ++ [delay 25])
     ++ ((button_process s2 qb).2
           ++ (if first then [] else (print_process cs qc).2) ++ [delay 25])
     ++ (task_loop cs post (Z.of_nat k mod 2, qd)).2).
Proof.
  intros first qa qb qc qd. unfold qd, qc, qb, qa, first.
  assert (Hnext : Z.of_nat (S (S k)) mod 2 = Z.of_nat k mod 2) by lia.
  cbn [task_loop]. rewrite !task_iteration_cycle. cbn [fst snd].
  rewrite Hnext.
  rewrite Nat.even_succ, <- Nat.negb_even. unfold cycle.
  destruct (button_process s1 q) as [ca ea]. cbn [fst snd].
  destruct (Nat.even k); cbn [negb fst snd].
  - destruct (print_process cs ca) as [cb eb]. cbn [fst snd].
    destruct (button_process s2 cb) as [cc ec]. cbn [fst snd].
    destruct (task_loop cs post _) as [st2 e2]. cbn [fst snd].
    by rewrite <- !(assoc_L (++)).
  - destruct (button_process s2 ca) as [cc ec]. cbn [fst snd].
    destruct (print_process cs cc) as [cd ed]. cbn [fst snd].
    destruct (task_loop cs post _) as [st2 e2]. cbn [fst snd].
    by rewrite <- !(assoc_L (++)).
Qed.

Lemma reads_forward (s : list ascii) : reads (forward cs s) = [].
Proof.
  unfold forward.
  repeat match goal with |- context [if ?b then _ else _] => destruct b end; done.
Qed.

Lemma cycle_buttons (d : bool) (levels : Z -> bool) (c : t) :
  reads (cycle cs d levels c).2 = map id (buttons c) /\
  map id (buttons (cycle cs d levels c).1) = map id (buttons c).
Proof.
  unfold cycle. destruct (button_process_spec levels c) as (Hb & _ & Hr).
  destruct (button_process levels c) as [c1 e1]. simpl in *.
  assert (Hids : map id (buttons c1) = map id (buttons c)).
  { rewrite Hb, map_map. done. }
  destruct d; simpl.
  - unfold print_process. destruct (is_buf_empty c1); simpl.
    + rewrite reads_app. simpl. by rewrite app_nil_r.
    + rewrite !reads_app, reads_forward. simpl. by rewrite app_nil_r.
  - rewrite reads_app. simpl. by rewrite app_nil_r.
Qed.

Lemma poller_buttons (samples : list (Z -> bool)) (k : nat) (c : t) :
  map id (buttons (poller cs k samples c).1) = map id (buttons c).
Proof.
  revert k c. induction samples as [|s samples IH]; intros k c; simpl; [done|].
  destruct (cycle_buttons (Nat.even k) s c) as [_ H].
  destruct (cycle cs (Nat.even k) s c) as [c1 e1].
  specialize (IH (S k) c1).
  destruct (poller cs (S k) samples c1) as [c2 e2]. simpl in *. congruence.
Qed.

Lemma poller_parity (samples : list (Z -> bool)) (k k' : nat) (c : t) :
  Nat.even k = Nat.even k' -> poller cs k samples c = poller cs k' samples c.
Proof.
  revert k k' c. induction samples as [|s samples IH]; intros k k' c E; simpl; [done|].
  rewrite E. destruct (cycle cs (Nat.even k') s c) as [c1 e1].
  rewrite (IH (S k) (S k')); [done|]. by rewrite !Nat.even_succ, <- !Nat.negb_even, E.
Qed.

Lemma button_process_queue (levels : Z -> bool) (c : t) :
  buf (button_process levels c).1 = buf c /\
  rd_ptr (button_process levels c).1 = rd_ptr c /\
  wr_ptr (button_process levels c).1 = wr_ptr c.
Proof. unfold button_process. by destruct (button_loop levels (buttons c)). Qed.

Lemma length_forward (s : list ascii) : (length (forward cs s) <= 1)%nat.
Proof.
  unfold forward.
  repeat match goal with |- context [if ?b then _ else _] => destruct b end;
    simpl; lia.
Qed.

Section Constructed.

Variables BUTTON_A BUTTON_B BUTTON_X BUTTON_Y : Z.
Variables BUTTON_UP BUTTON_DOWN BUTTON_LEFT BUTTON_RIGHT : Z.
Variables BUTTON_L1 BUTTON_L2 BUTTON_R1 BUTTON_R2 : Z.
Variable memory : nat -> nat -> ascii.

Let twelve : list Z :=
  [BUTTON_A; BUTTON_B; BUTTON_X; BUTTON_Y; BUTTON_UP; BUTTON_DOWN;
   BUTTON_LEFT; BUTTON_RIGHT; BUTTON_L1; BUTTON_L2; BUTTON_R1; BUTTON_R2].

Let c0 : t :=
  new BUTTON_A BUTTON_B BUTTON_X BUTTON_Y BUTTON_UP BUTTON_DOWN BUTTON_LEFT
    BUTTON_RIGHT BUTTON_L1 BUTTON_L2 BUTTON_R1 BUTTON_R2 memory.

(** C6.  [start_task] creates the task when there is none and is a no-op
    once there is one.  In the loop of the task, started on a controller in
    any state (whatever is queued, whatever callbacks are registered) and
    followed for any number of iterations, the counter is the number of
    iterations made so far modulo 2, and any two consecutive iterations
    are: the button pass, which reads each of the twelve buttons once,
    then [print_process] when the first of the two has an even number,
    then [delay(25)]; the button pass again, then [print_process] when the
    first of the two has an odd number, then [delay(25)].  So every
    iteration makes the button pass, exactly one of two consecutive
    iterations calls [print_process], which forwards at most one command
    and reads no button, and the loop goes on from there. *)
Theorem poller_cycles (c : t) (pre post : list (Z -> bool)) (s1 s2 : Z -> bool) :
  map id (buttons c) = twelve ->
  let st := (task_body cs pre c).1 in
  let q := st.2 in
  let first := Nat.even (length pre) in
  let qa := (button_process s1 q).1 in
  let qb := if first then (print_process cs qa).1 else qa in
  let qc := (button_process s2 qb).1 in
  let qd := if first then qc else (print_process cs qc).1 in
  ((start_task c0).2 = [task_create] /\
   controller_task (start_task c).1 = true /\
   start_task (start_task c).1 = ((start_task c).1, []) /\
   (controller_task c = true -> start_task c = (c, []))) /\
  st.1 = Z.of_nat (length pre) mod 2 /\
  task_body cs (pre ++ s1 :: s2 :: post) c =
    ((task_loop cs post (st.1, qd)).1,
     (task_body cs pre c).2
       ++ ((button_process s1 q).2
             ++ (if first then (print_process cs qa).2 else []) ++ [delay 25])
       ++ ((button_process s2 qb).2
             ++ (if first then [] else (print_process cs qc).2) ++ [delay 25])
       ++ (task_loop cs post (st.1, qd)).2) /\
  (reads (button_process s1 q).2 = twelve /\
   reads (button_process s2 qb).2 = twelve /\ length twelve = 12%nat) /\
  (forall q' : t,
     (length (print_process cs q').2 <= 1)%nat /\
     reads (print_process cs q').2 = [] /\
     invoked (print_process cs q').2 = [])  /\
  task_body cs pre c =
    ((Z.of_nat (length pre) mod 2, (poller cs 0 pre c).1), (poller cs 0 pre c).2).
Proof.
  intros Hids st q first qa qb qc qd.
  assert (Hbody : task_body cs pre c =
    ((Z.of_nat (length pre) mod 2, (poller cs 0 pre c).1), (poller cs 0 pre c).2)).
  { unfold task_body. change 0 with (Z.of_nat 0 mod 2) at 1.
    by rewrite task_loop_poller. }
  assert (Hq : map id (buttons q) = twelve).
  { unfold q, st. rewrite Hbody. simpl. by rewrite poller_buttons. }
  assert (Hqb : map id (buttons qb) = twelve).
  { destruct (cycle_buttons first s1 q) as [_ H]. rewrite <- Hq, <- H.
    unfold qb, qa, cycle. destruct (button_process s1 q) as [ca ea]. simpl.
    destruct first; [|done]. by destruct (print_process cs ca). }
  split.
  { split; [done|]. unfold start_task.
    destruct (controller_task c) eqn:E; simpl; rewrite ?E; repeat split; done. }
  split; [unfold st; by rewrite Hbody|].
  split.
  { unfold task_body in *. rewrite task_loop_app.
    unfold qd, qc, qb, qa, q, st, first. rewrite Hbody. cbn [fst snd].
    rewrite task_loop_two. cbn [fst snd]. done. }
  split.
  { destruct (button_process_spec s1 q) as (_ & _ & ->).
    destruct (button_process_spec s2 qb) as (_ & _ & ->). done. }
  split; [|done].
  intros q'. unfold print_process. destruct (is_buf_empty q'); simpl.
  { split; [lia|done]. }
  split; [apply length_forward|]. split; [apply reads_forward|].
  unfold forward.
  repeat match goal with |- context [if ?b then _ else _] => destruct b end; done.
Qed.

End Constructed.

End Task.

(** A use of [poller_cycles]: four iterations on a controller with a
    callback and two queued commands; the button 17 is down during the
    first iteration only. *)
Lemma poller_cycles_witness :
  map Controller.id (Controller.buttons example_busy)
    = [17; 15; 14; 16; 10; 11; 12; 13; 6; 7; 8; 9] /\
  (let down := fun _ : Z => true in
   let up := fun _ : Z => false in
   let trace := (Controller.task_body false [down; up; up; up] example_busy).2 in
   Controller.invoked trace = ["p"] /\
   Controller.link trace = [pros_print 1 0 "ready"; pros_rumble "-"]).
Proof.
  assert (H : map Controller.id (Controller.buttons example_busy)
              = [17; 15; 14; 16; 10; 11; 12; 13; 6; 7; 8; 9]) by reflexivity.
  split; [exact H|].
  pose proof (poller_cycles false 17 15 14 16 10 11 12 13 6 7 8 9
                (fun _ _ => "x"%char) example_busy []
                [fun _ => false; fun _ => false]
                (fun _ => true) (fun _ => false) H)
    as (_ & _ & Hloop & _).
  cbv zeta. change [fun _ : Z => true; fun _ : Z => false; fun _ => false; fun _ => false]
    with ([] ++ (fun _ : Z => true) :: (fun _ : Z => false)
                 :: [fun _ => false; fun _ => false]).
  rewrite Hloop. vm_compute. done.
Defined.

(** ** Widgets *)

Section Widgets.

Import Brain.

(** C7.  The radius a widget stores: a negative request gives 0, a
    request above [w/2] or [h/2] (integer halves, rounded towards zero)
    gives [min(w/2, h/2)], any other request is kept.  For a width and a
    height that are not negative this is the request clamped to the range
    from 0 to [min(w/2, h/2)]; a widget of width 20 and height 10 with
    requested radius 9 has radius 5.  For a width or a height below -1 the
    smaller half is negative, and every request that is not negative
    gives that negative half. *)
Theorem radius_clamp (text : string) (color bgcolor x y w h radius : Z) (big : bool) :
  let b := Button.init text color bgcolor x y w h radius big in
  let m := Z.min (w `quot` 2) (h `quot` 2) in
  Button.radius b = (if radius <? 0 then 0 else if m <? radius then m else radius) /\
  (radius < 0 -> Button.radius b = 0) /\
  (0 <= radius -> m < radius -> Button.radius b = m) /\
  (0 <= radius <= m -> Button.radius b = radius) /\
  (0 <= w -> 0 <= h ->
     Button.radius b = Z.max 0 (Z.min radius m) /\ 0 <= Button.radius b <= m) /\
  (w < -1 \/ h < -1 -> 0 <= radius -> Button.radius b = m /\ Button.radius b < 0) /\
  Button.radius (Button.init text color bgcolor x y 20 10 9 big) = 5.
Proof.
  intros b m. unfold b, m, Button.init. cbn [Button.radius].
  destruct (radius <? 0) eqn:E0;
    destruct (w `quot` 2 <? radius) eqn:E1;
    destruct (h `quot` 2 <? radius) eqn:E2;
    destruct (Z.min (w `quot` 2) (h `quot` 2) <? radius) eqn:E3;
    simpl; repeat split; intros; try done; lia.
Qed.

Lemma is_touched_contains (xy : Z * Z) (b : Button.t) :
  Button.is_touched xy b = true <-> contains xy b.
Proof.
  unfold Button.is_touched, contains.
  rewrite !andb_true_iff, !Z.leb_le. lia.
Qed.

(** The loop stops at the first widget that contains the point. *)
Lemma hit_loop_first (pick : Button.t -> option callback) (xy : Z * Z)
    (ws : list Button.t) (i k : nat) (b : Button.t) :
  ws !! k = Some b -> contains xy b ->
  (forall (j : nat) (b' : Button.t),
     (j < k)%nat -> ws !! j = Some b' -> ~ contains xy b') ->
  hit_loop pick (fun _ => xy) i ws = replicate (S k) touch_status ++ fire (pick b).
Proof.
  revert i k. induction ws as [|a ws IH]; intros i k Hk Hb Hfirst; [done|].
  destruct k as [|k]; simpl in *.
  - injection Hk as ->. apply is_touched_contains in Hb. by rewrite Hb.
  - destruct (Button.is_touched xy a) eqn:E.
    + apply is_touched_contains in E. by destruct (Hfirst 0%nat a ltac:(lia) eq_refl).
    + f_equal. apply IH; [done..|].
      intros j b' Hj Hb'. apply (Hfirst (S j) b'); [lia | done].
Qed.

Lemma hit_loop_none (pick : Button.t -> option callback) (xy : Z * Z)
    (ws : list Button.t) (i : nat) :
  (forall b : Button.t, b ∈ ws -> ~ contains xy b) ->
  hit_loop pick (fun _ => xy) i ws = replicate (length ws) touch_status.
Proof.
  revert i. induction ws as [|a ws IH]; intros i Hnone; simpl; [done|].
  destruct (Button.is_touched xy a) eqn:E.
  - apply is_touched_contains in E. destruct (Hnone a); [constructor | done].
  - f_equal. apply IH. intros b Hb. apply Hnone. by constructor.
Qed.

(** C4.  A widget is touched exactly when its rectangle contains the
    touch coordinate, bounds included.  On a touch-pressed event the
    whole-screen press callback, when one is registered, is invoked first;
    when it returns false nothing else happens.  Otherwise the widgets of
    the display are tested in registration order up to the first one that
    contains the coordinate, whose press callback is invoked when it has
    one, and no later widget is tested; when no widget contains the
    coordinate all are tested and nothing is invoked.  The same holds for
    touch-released events with the release callbacks. *)
Theorem touch_dispatch (ret : callback -> bool) (xy : Z * Z)
    (p : process) (self : t) :
  let status := fun _ : nat => xy in
  let ws := listed p self in
  (forall b : Button.t,
     Button.is_touched xy b = true <->
     Button.x1 b <= xy.1 <= Button.x2 b /\ Button.y1 b <= xy.2 <= Button.y2 b) /\
  touch_pressed_func ret status p self
    = fire (on_press self)
        ++ (if passes (on_press self) ret
            then hit_loop Button.on_press status 0 ws else []) /\
  touch_released_func ret status p self
    = fire (on_release self)
        ++ (if passes (on_release self) ret
            then hit_loop Button.on_release status 0 ws else []) /\
  (forall f : callback,
     on_press self = Some f -> ret f = false ->
     touch_pressed_func ret status p self = [invoke f]) /\
  (forall f : callback,
     on_release self = Some f -> ret f = false ->
     touch_released_func ret status p self = [invoke f]) /\
  (forall (pick : Button.t -> option callback) (k : nat) (b : Button.t),
     ws !! k = Some b -> contains xy b ->
     (forall (j : nat) (b' : Button.t),
        (j < k)%nat -> ws !! j = Some b' -> ~ contains xy b') ->
     hit_loop pick status 0 ws = replicate (S k) touch_status ++ fire (pick b)) /\
  (forall pick : Button.t -> option callback,
     (forall b : Button.t, b ∈ ws -> ~ contains xy b) ->
     hit_loop pick status 0 ws = replicate (length ws) touch_status).
Proof.
  intros status ws.
  split; [apply is_touched_contains|].
  split; [unfold touch_pressed_func, touch_func, passes; by destruct (on_press self)|].
  split; [unfold touch_released_func, touch_func, passes; by destruct (on_release self)|].
  split.
  { intros f Hf Hret. unfold touch_pressed_func, touch_func. by rewrite Hf, Hret. }
  split.
  { intros f Hf Hret. unfold touch_released_func, touch_func. by rewrite Hf, Hret. }
  split.
  - intros pick k b Hk Hb Hfirst. exact (hit_loop_first pick xy ws 0 k b Hk Hb Hfirst).
  - intros pick Hnone. exact (hit_loop_none pick xy ws 0 Hnone).
Qed.

End Widgets.

(** C7 fails as it is stated for a widget of negative width: with width
    -3, height 10 and requested radius 0 the radius stored is -1, which is
    neither the request, although the request is not negative, nor a
    value of a range that starts at 0; and a negative request gives 0,
    which is above [min(w/2, h/2) = -1]. *)
Lemma negative_width_negative_radius :
  let b := Brain.Button.init "" 0 0 0 0 (-3) 10 0 false in
  let b' := Brain.Button.init "" 0 0 0 0 (-3) 10 (-4) false in
  Brain.Button.radius b = -1 /\
  Z.min (-3 `quot` 2) (10 `quot` 2) = -1 /\
  Brain.Button.radius b <> Z.max 0 (Z.min 0 (Z.min (-3 `quot` 2) (10 `quot` 2))) /\
  ~ 0 <= Brain.Button.radius b /\
  Brain.Button.radius b' = 0 /\
  ~ Brain.Button.radius b' <= Z.min (-3 `quot` 2) (10 `quot` 2).
Proof. vm_compute. repeat split; try done; intros H; by apply H. Qed.

(** The test of the specification: [A] and [B] both contain the point
    (70, 40); a touch there tests [A] only and invokes only the callback
    of [A]. *)
Example touch_overlap :
  Brain.on_touch_pressed (fun _ => true) (fun _ => (70, 40)) example_process
  = Some [touch_status; invoke "a"].
Proof. reflexivity. Qed.

(** ** Self-registration of widgets *)

Section Registration.

Import Brain.








End Registration.

Section Registered.

Import Brain.


End Registered.

(** ** Bitmap blit *)

Section Blit.

Import Brain.

(** C9.  Whatever the anchors, the background and the state of the
    screen: without a storage card [draw_image] only prints "SD Card not
    found!"; with a card and no such file it only prints "File not
    found!"; with a file shorter than the 4-byte header and the 1024-byte
    palette it closes the file and only prints "Invalid image file!".  In
    the three cases it returns to its caller after these calls, having
    drawn no pixel, and the three messages are pairwise distinct. *)
Theorem draw_image_failures (fuel : nat) (sd : storage) (eraser : Z)
    (filename : string) (x y bgcolor : Z) :
  let result := draw_image fuel sd eraser filename x y bgcolor in
  let message := fun text : string =>
    [set_pen 0xff0000; screen_print E_TEXT_MEDIUM 0 222 text] in
  (usd_installed sd = false -> result = Some (message "SD Card not found!")) /\
  (usd_installed sd = true -> files sd filename = None ->
   result = Some (fopen filename :: message "File not found!")) /\
  (forall content : list byte,
     usd_installed sd = true -> files sd filename = Some content ->
     (length content < 4 + 1024)%nat ->
     result = Some ([fopen filename; fread 2048; fclose]
                      ++ message "Invalid image file!")) /\
  ("SD Card not found!" <> "File not found!" /\
   "SD Card not found!" <> "Invalid image file!" /\
   "File not found!" <> "Invalid image file!")%string /\
  (forall text : string, drawing (message text) = [set_pen 0xff0000]).
Proof.
  intros result message. unfold result, draw_image.
  split; [intros ->; reflexivity|].
  split; [intros -> ->; reflexivity|].
  split; [|split; [repeat split; discriminate | reflexivity]].
  intros content -> -> Hlen. cbn [negb].
  rewrite length_take.
  destruct (2048 `min` length content <? 4 + 1024)%nat eqn:E; [reflexivity|].
  apply Nat.ltb_ge in E. lia.
Qed.








Section Loop.

Variables (palette alpha : list Z) (x0 y0 w h : Z).

Let pixel := pixel palette alpha x0 y0 w.
Let pixels := pixels palette alpha x0 y0 w.
Let rows := rows palette alpha x0 y0 w h.

Lemma pixels_app (st : Z * Z) (a b : list byte) :
  pixels st (a ++ b) =
  ((pixels (pixels st a).1 b).1, (pixels st a).2 ++ (pixels (pixels st a).1 b).2).
Proof.
  revert st. induction a as [|i a IH]; intros st; simpl.
  - by destruct (pixels st b).
  - unfold pixels in *. simpl.
    destruct (Brain.pixel palette alpha x0 y0 w st i) as [st1 e1].
    rewrite IH. destruct (Brain.pixels palette alpha x0 y0 w st1 a) as [st2 e2].
    simpl. by rewrite (assoc_L (++)).
Qed.

Lemma drawing_app (e1 e2 : list event) :
  drawing (e1 ++ e2) = drawing e1 ++ drawing e2.
Proof. unfold drawing. by rewrite flat_map_app. Qed.

Lemma drawing_pixels (st : Z * Z) (bytes : list byte) :
  drawing (pixels st bytes).2 = (pixels st bytes).2.
Proof.
  revert st. induction bytes as [|i bytes IH]; intros st; [done|].
  unfold pixels in *. simpl.
  destruct (Brain.pixel palette alpha x0 y0 w st i) as [st1 e1] eqn:E.
  specialize (IH st1).
  destruct (Brain.pixels palette alpha x0 y0 w st1 bytes) as [st2 e2].
  simpl in *. rewrite drawing_app, IH. f_equal.
  unfold Brain.pixel in E. destruct st as [col row].
  destruct (default 0 (alpha !! Z.to_nat (u8 i)) =? 0);
    destruct (w <=? col + 1); by injection E as <- <-.
Qed.

(** After a pixel the position is never the origin again. *)
Lemma pixel_progress (st : Z * Z) (i : byte) :
  0 <= st.1 -> 0 <= st.2 ->
  0 <= (pixel st i).1.1 /\ 0 <= (pixel st i).1.2 /\
  ((pixel st i).1.1 =? 0) && ((pixel st i).1.2 =? 0) = false.
Proof.
  destruct st as [col row]. simpl. intros Hc Hr. unfold pixel, Brain.pixel.
  destruct (w <=? col + 1); simpl; (split; [lia|]; split; [lia|]);
    rewrite ?andb_false_iff, ?Z.eqb_neq; lia.
Qed.

Lemma pixels_progress (st : Z * Z) (bytes : list byte) :
  0 <= st.1 -> 0 <= st.2 ->
  (st.1 =? 0) && (st.2 =? 0) = false \/ bytes <> [] ->
  0 <= (pixels st bytes).1.1 /\ 0 <= (pixels st bytes).1.2 /\
  ((pixels st bytes).1.1 =? 0) && ((pixels st bytes).1.2 =? 0) = false.
Proof.
  revert st. induction bytes as [|i bytes IH]; intros st Hc Hr Hor.
  - simpl. destruct Hor as [H|H]; done.
  - destruct (pixel_progress st i Hc Hr) as (H1 & H2 & H3).
    unfold pixels, pixel in *. simpl.
    destruct (Brain.pixel palette alpha x0 y0 w st i) as [st1 e1].
    specialize (IH st1 H1 H2 (or_introl H3)).
    by destruct (Brain.pixels palette alpha x0 y0 w st1 bytes).
Qed.

(** Whatever the chunks, the pixels the loop draws are those of a prefix
    of the bytes that follow the palette, drawn in file order. *)
Lemma rows_drawing (fuel : nat) (buf rest : list byte) (st : Z * Z)
    (e : list event) :
  rows fuel buf rest st = Some e -> 0 <= st.1 -> 0 <= st.2 ->
  exists n : nat,
    drawing e =
    (pixels st
       (take n ((if (st.1 =? 0) && (st.2 =? 0) then drop 1028 buf else [])
                  ++ rest))).2.
Proof.
  revert buf rest st e.
  induction fuel as [|fuel IH]; intros buf rest st e He Hc Hr; [done|].
  unfold rows in *. simpl in He.
  destruct (st.2 <? h); [|injection He as <-; by exists 0%nat].
  destruct ((st.1 =? 0) && (st.2 =? 0)) eqn:Z0.
  - destruct (Brain.pixels palette alpha x0 y0 w st (drop 1028 buf))
      as [st1 e1] eqn:P.
    destruct (Brain.rows palette alpha x0 y0 w h fuel buf rest st1)
      as [e2|] eqn:R; [|done].
    injection He as <-. rewrite !drawing_app. simpl.
    destruct (drop 1028 buf) as [|b bs] eqn:D.
    + simpl in P. injection P as <- <-.
      destruct (IH _ _ _ _ R Hc Hr) as [n Hn]. rewrite Z0, D in Hn.
      exists n. by rewrite Hn.
    + assert (Hne : b :: bs <> []) by done.
      pose proof (pixels_progress st (b :: bs) Hc Hr (or_intror Hne))
        as (H1 & H2 & H3).
      unfold pixels in H1, H2, H3. rewrite P in H1, H2, H3. simpl in H1, H2, H3.
      destruct (IH _ _ _ _ R H1 H2) as [n Hn]. rewrite H3 in Hn. simpl in Hn.
      exists (length (b :: bs) + n)%nat.
      rewrite take_app_add, pixels_app. unfold pixels. rewrite P. simpl.
      rewrite Hn. f_equal.
      pose proof (drawing_pixels st (b :: bs)) as Hd. unfold pixels in Hd.
      by rewrite P in Hd.
  - destruct (length (take 2048 rest) =? 0)%nat eqn:L.
    { injection He as <-. by exists 0%nat. }
    destruct (Brain.pixels palette alpha x0 y0 w st (take 2048 rest))
      as [st1 e1] eqn:P.
    destruct (Brain.rows palette alpha x0 y0 w h fuel (take 2048 rest)
                (drop 2048 rest) st1) as [e2|] eqn:R; [|done].
    injection He as <-.
    pose proof (pixels_progress st (take 2048 rest) Hc Hr (or_introl Z0))
      as (H1 & H2 & H3).
    unfold pixels in H1, H2, H3. rewrite P in H1, H2, H3. simpl in H1, H2, H3.
    destruct (IH _ _ _ _ R H1 H2) as [n Hn]. rewrite H3 in Hn. simpl in Hn.
    exists (length (take 2048 rest) + n)%nat. simpl.
    rewrite <- (take_drop 2048 rest) at 2.
    rewrite take_app_add, pixels_app. unfold pixels. rewrite P. simpl.
    rewrite !drawing_app. simpl. rewrite Hn. f_equal.
    pose proof (drawing_pixels st (take 2048 rest)) as Hd. unfold pixels in Hd.
    by rewrite P in Hd.
Qed.


(** When the first read brings the header and the palette and not one
    pixel, the position stays at the origin, the loop never reads again
    and, for an image of positive height, never ends. *)
Lemma rows_spins (fuel : nat) (buf rest : list byte) :
  drop 1028 buf = [] -> 0 < h -> rows fuel buf rest (0, 0) = None.
Proof.
  intros Hd Hh. unfold rows. induction fuel as [|fuel IH]; [done|].
  simpl. apply Z.ltb_lt in Hh. rewrite Hh, Hd. simpl. by rewrite IH.
Qed.





End Loop.



End Blit.

(** A use of [draw_image_failures]: the example card holds no file of the
    name asked for, or a file of four bytes. *)
Lemma draw_image_failures_witness :
  Brain.draw_image 0 example_card 0 "none.bin" 0 0 (-1)
    = Some [fopen "none.bin"; set_pen 0xff0000;
            screen_print E_TEXT_MEDIUM 0 222 "File not found!"] /\
  Brain.draw_image 0 example_card 0 "short.bin" 0 0 (-1)
    = Some [fopen "short.bin"; fread 2048; fclose; set_pen 0xff0000;
            screen_print E_TEXT_MEDIUM 0 222 "Invalid image file!"].
Proof.
  split.
  - exact (proj1 (proj2 (draw_image_failures 0 example_card 0 "none.bin" 0 0 (-1)))
             eq_refl eq_refl).
  - refine (proj1 (proj2 (proj2
             (draw_image_failures 0 example_card 0 "short.bin" 0 0 (-1))))
             [x00; x02; x00; x02] eq_refl eq_refl _).
    simpl. lia.
Defined.

(** The image of the specification's test on a magenta background: the
    opaque red entry is drawn as pure red, the pixel of the transparent
    entry is skipped, the half transparent blue is blended once with the
    background. *)
Example blit_example :
  Brain.draw_image 3 example_card 0 "logo.bin" 0 0 0xff00ff
  = Some [fopen "logo.bin"; fread 2048;
          set_eraser 0xff00ff; erase_rect 0 0 1 1; set_eraser 0;
          set_pen 0xff0000; draw_pixel 0 0;
          set_pen 0x7f00ff; draw_pixel 0 1;
          set_pen 0xff0000; draw_pixel 1 1;
          delay 1; fclose; delay 5].
Proof. vm_compute. reflexivity. Qed.


(** * Further properties of the code *)

(** ** More on the output queue *)

Section QueueMore.

Import Controller.

Variable cs : bool.

Lemma length_string_of_list_ascii (l : list ascii) :
  String.length (string_of_list_ascii l) = length l.
Proof. induction l as [|a l IH]; simpl; [done|]. by rewrite IH. Qed.

Lemma length_list_ascii_of_string (s : string) :
  length (list_ascii_of_string s) = String.length s.
Proof. induction s as [|a s IH]; simpl; [done|]. by rewrite IH. Qed.

Lemma length_fit (n : nat) (s : string) : (String.length (fit n s) <= n - 1)%nat.
Proof.
  unfold fit. rewrite length_string_of_list_ascii, length_take. lia.
Qed.

Lemma fit_plain (n : nat) (s : string) :
  plain s -> (String.length s <= n - 1)%nat -> fit n s = s.
Proof.
  intros Hp Hn. unfold fit. rewrite Hp.
  rewrite take_ge by (rewrite length_list_ascii_of_string; lia).
  apply string_of_list_ascii_of_string.
Qed.

Lemma holds_untouched (c c' : t) (cmds : list producer) :
  buf c' = buf c -> rd_ptr c' = rd_ptr c -> wr_ptr c' = wr_ptr c ->
  holds cs c cmds -> holds cs c' cmds.
Proof.
  intros Hb Hr Hw (Hwf & Hlen & Hslots).
  unfold holds, wf, queue_len, slot in *. rewrite Hb, Hr, Hw. done.
Qed.

(** Where the two indices are after a run. *)
Lemma run_indices (l : list call) (c : t) (cmds : list producer) :
  holds cs c cmds ->
  wr_ptr (run cs l c).1
    = (wr_ptr c + Z.of_nat (length (accepted cs l c))) mod 8 /\
  rd_ptr (run cs l c).1 = (rd_ptr c + Z.of_nat (length (run cs l c).2)) mod 8.
Proof.
  revert c cmds. induction l as [|o l IH]; intros c cmds Hc.
  - pose proof Hc as ((_ & _ & Hrd & Hwr) & _). unfold MAX_NUM_OF_MSG in *.
    simpl. lia.
  - pose proof Hc as ((_ & _ & Hrd & Hwr) & _). unfold MAX_NUM_OF_MSG in *.
    destruct o as [p|]; simpl.
    + destruct (is_buf_full c) eqn:Hfull.
      * rewrite produce_full by done.
        destruct (IH c cmds Hc) as [H1 H2].
        destruct (run cs l c) as [c2 e2]. done.
      * destruct (IH _ _ (holds_produce cs c cmds p Hc Hfull)) as [H1 H2].
        destruct (produce_not_full cs c p (proj1 Hc) Hfull) as (s & Hs & _).
        rewrite Hs in *.
        destruct (run cs l (update_wr_ptr (put s c))) as [c2 e2].
        simpl in *. unfold MAX_NUM_OF_MSG in *. rewrite H1, H2. lia.
    + unfold print_process. destruct (is_buf_empty c) eqn:Hempty.
      * destruct (IH c cmds Hc) as [H1 H2].
        destruct (run cs l c) as [c2 e2]. done.
      * destruct (holds_drain cs c cmds Hc Hempty) as (p & cmds1 & -> & Hfwd & Hc1).
        destruct (IH _ _ Hc1) as [H1 H2].
        destruct (run cs l (update_rd_ptr c)) as [c2 e2].
        simpl in *. unfold MAX_NUM_OF_MSG in *. rewrite H1, H2, Hfwd.
        simpl. lia.
Qed.

Lemma produce_set_buttons (bs : list ButtonStruct) (p : producer) (c : t) :
  produce p (set_buttons bs c) = set_buttons bs (produce p c).
Proof.
  destruct c as [task bs0 b rd wr].
  destruct p as [row|row col e|pat]; simpl;
    unfold clear, print, rumble, is_buf_full; simpl;
    repeat match goal with |- context [if ?x then _ else _] => destruct x end;
    reflexivity.
Qed.

Lemma step_set_buttons (bs : list ButtonStruct) (o : call) (c : t) :
  step cs o (set_buttons bs c) = (set_buttons bs (step cs o c).1, (step cs o c).2).
Proof.
  destruct o as [p|]; simpl; [by rewrite produce_set_buttons|].
  unfold print_process. destruct c as [task bs0 b rd wr]. simpl.
  unfold is_buf_empty. simpl. by destruct (rd =? wr).
Qed.

Lemma step_buttons (o : call) (c : t) : buttons (step cs o c).1 = buttons c.
Proof.
  destruct o as [p|]; simpl.
  - destruct p; simpl; unfold clear, print, rumble;
      repeat match goal with |- context [if ?x then _ else _] => destruct x end;
      reflexivity.
  - unfold print_process. by destruct (is_buf_empty c).
Qed.

Lemma link_app (e1 e2 : list event) : link (e1 ++ e2) = link e1 ++ link e2.
Proof. unfold link. by rewrite flat_map_app. Qed.

Lemma link_forward (s : list ascii) : link (forward cs s) = forward cs s.
Proof.
  unfold forward.
  repeat match goal with |- context [if ?b then _ else _] => destruct b end; done.
Qed.

Lemma link_button_process (levels : Z -> bool) (c : t) :
  link (button_process levels c).2 = [].
Proof.
  unfold button_process. rewrite button_loop_spec. simpl.
  induction (buttons c) as [|b bs IH]; simpl; [done|].
  rewrite link_app, IH, app_nil_r.
  destruct (edge _ _ _ _) as [|f [|g fs]] eqn:E; try done.
  unfold edge in E.
  by destruct (last_state b), (levels (id b)), (on_press b), (on_release b).
Qed.

Lemma drains_half (n : nat) :
  drains 0 n = Nat.div2 (S n) /\ drains 1 n = Nat.div2 n.
Proof.
  assert (H : forall m k, drains (S (S k)) m = drains k m).
  { induction m as [|m IH]; intros k; simpl; [done|]. by rewrite IH. }
  induction n as [|n [IH0 IH1]]; [done|]. split.
  - change (drains 0 (S n)) with (1 + drains 1 n)%nat. rewrite IH1.
    by destruct n.
  - change (drains 1 (S n)) with (0 + drains 2 n)%nat. rewrite H, IH0. done.
Qed.

(** What the poller forwards out of a queue that nobody fills. *)
Lemma poller_drains (samples : list (Z -> bool)) (k : nat) (c : t)
    (cmds : list producer) :
  holds cs c cmds ->
  link (poller cs k samples c).2
    = map (command cs) (take (drains k (length samples)) cmds) /\
  holds cs (poller cs k samples c).1 (drop (drains k (length samples)) cmds).
Proof.
  revert k c cmds. induction samples as [|s samples IH]; intros k c cmds Hc.
  - simpl. by rewrite ?take_0, ?drop_0.
  - cbn [poller length drains]. unfold cycle.
    pose proof (button_process_queue s c) as (Hb & Hr & Hw).
    pose proof (link_button_process s c) as Hl.
    destruct (button_process s c) as [c1 e1]. simpl in Hb, Hr, Hw, Hl.
    pose proof (holds_untouched c c1 cmds Hb Hr Hw Hc) as Hc1.
    destruct (Nat.even k).
    + unfold print_process. destruct (is_buf_empty c1) eqn:Hempty.
      * pose proof (holds_empty cs c1 cmds Hc1 Hempty) as ->.
        destruct (IH (S k) c1 [] Hc1) as [H1 H2].
        destruct (poller cs (S k) samples c1) as [c2 e2]. simpl in *.
        rewrite !link_app, Hl, H1. simpl.
        by rewrite !take_nil, !drop_nil in *.
      * destruct (holds_drain cs c1 cmds Hc1 Hempty) as (p & cmds1 & -> & Hfwd & Hd).
        destruct (IH (S k) _ cmds1 Hd) as [H1 H2].
        destruct (poller cs (S k) samples (update_rd_ptr c1)) as [c2 e2].
        simpl in *. rewrite !link_app, Hl, H1, link_forward, Hfwd. done.
    + destruct (IH (S k) c1 cmds Hc1) as [H1 H2].
      destruct (poller cs (S k) samples c1) as [c2 e2]. simpl in *.
      rewrite !link_app, Hl, H1. done.
Qed.

Section Constructed.

Variables BUTTON_A BUTTON_B BUTTON_X BUTTON_Y : Z.
Variables BUTTON_UP BUTTON_DOWN BUTTON_LEFT BUTTON_RIGHT : Z.
Variables BUTTON_L1 BUTTON_L2 BUTTON_R1 BUTTON_R2 : Z.
Variable memory : nat -> nat -> ascii.

Let c0 : t :=
  new BUTTON_A BUTTON_B BUTTON_X BUTTON_Y BUTTON_UP BUTTON_DOWN BUTTON_LEFT
    BUTTON_RIGHT BUTTON_L1 BUTTON_L2 BUTTON_R1 BUTTON_R2 memory.

Let fresh : holds cs c0 [] :=
  new_holds cs BUTTON_A BUTTON_B BUTTON_X BUTTON_Y BUTTON_UP BUTTON_DOWN
    BUTTON_LEFT BUTTON_RIGHT BUTTON_L1 BUTTON_L2 BUTTON_R1 BUTTON_R2 memory.

(** X1.  Along every run from a fresh controller the write index is the
    number of producer calls accepted so far modulo 8, and the read index
    is the number of commands forwarded so far modulo 8. *)
Theorem indices_count (l : list call) :
  wr_ptr (run cs l c0).1 = Z.of_nat (length (accepted cs l c0)) mod 8 /\
  rd_ptr (run cs l c0).1 = Z.of_nat (length (run cs l c0).2) mod 8.
Proof. exact (run_indices l c0 [] fresh). Qed.

(** X2.  Along every run the buffer keeps its eight slots of thirty-six
    cells, and what reaches the output link fits a slot: a forwarded text
    has at most 31 characters, a forwarded rumble pattern at most 34, and
    nothing but clear, rumble and print calls is made. *)
Theorem forwarded_fits_slot (l : list call) :
  wf (run cs l c0).1 /\
  Forall
    (fun e =>
       match e with
       | pros_clear => True
       | pros_rumble pattern => (String.length pattern <= 34)%nat
       | pros_print _ _ msg => (String.length msg <= 31)%nat
       | _ => False
       end)
    (run cs l c0).2.
Proof.
  destruct (run_holds cs l c0 [] fresh) as (cmds & Hc & Hrun).
  split; [apply Hc|].
  assert (H : Forall
    (fun e =>
       match e with
       | pros_clear => True
       | pros_rumble pattern => (String.length pattern <= 34)%nat
       | pros_print _ _ msg => (String.length msg <= 31)%nat
       | _ => False
       end) (map (command cs) ([] ++ accepted cs l c0))).
  { apply Forall_fmap, Forall_forall. intros p _. destruct p as [row|row col e|pat].
    - simpl. destruct (row =? -1); [done|]. apply (length_fit 32).
    - apply (length_fit 32).
    - apply (length_fit 35). }
  rewrite Hrun in H. by apply Forall_app in H as [H _].
Qed.

(** X3.  In any state reached by a run in which the buffer is not full,
    an accepted [print] is queued behind what is pending, with its row and
    column converted to [char] and its text cut at the first NUL and at 31
    characters; [rumble] likewise with 34 characters.  For a row and a
    column from 0 to 127 and a text without NUL of at most 31 characters
    the command queued is the call as it was made. *)
Theorem print_queued (l : list call) (row col : Z) (text pattern : string) :
  let c := (run cs l c0).1 in
  is_buf_full c = false ->
  pending cs (print row col text c)
    = pending cs c ++ [pros_print (cell cs row) (cell cs col) (fit 32 text)] /\
  pending cs (rumble pattern c) = pending cs c ++ [pros_rumble (fit 35 pattern)] /\
  (cell cs row - row) mod 256 = 0 /\
  (if cs then -128 <= cell cs row < 128 else 0 <= cell cs row < 256) /\
  (0 <= row < 128 -> 0 <= col < 128 -> plain text ->
   (String.length text <= 31)%nat ->
   pending cs (print row col text c) = pending cs c ++ [pros_print row col text]) /\
  (plain pattern -> (String.length pattern <= 34)%nat ->
   pending cs (rumble pattern c) = pending cs c ++ [pros_rumble pattern]).
Proof.
  intros c Hfull.
  destruct (run_holds cs l c0 [] fresh) as (cmds & Hc & _). fold c in Hc.
  assert (Hprint : pending cs (print row col text c)
    = pending cs c ++ [pros_print (cell cs row) (cell cs col) (fit 32 text)]).
  { change (print row col text c) with (produce (Print row col text) c).
    rewrite (holds_pending cs _ _ (holds_produce cs c cmds _ Hc Hfull)).
    by rewrite (holds_pending cs _ _ Hc), map_app. }
  assert (Hrumble : pending cs (rumble pattern c)
    = pending cs c ++ [pros_rumble (fit 35 pattern)]).
  { change (rumble pattern c) with (produce (Rumble pattern) c).
    rewrite (holds_pending cs _ _ (holds_produce cs c cmds _ Hc Hfull)).
    by rewrite (holds_pending cs _ _ Hc), map_app. }
  split; [done|]. split; [done|].
  assert (Hcell : (cell cs row - row) mod 256 = 0 /\
    (if cs then -128 <= cell cs row < 128 else 0 <= cell cs row < 256)).
  { unfold cell, int_of_char. rewrite char_of_int_N.
    destruct cs; simpl; [|lia].
    destruct (128 <=? row mod 256) eqn:E; lia. }
  split; [apply Hcell|]. split; [apply Hcell|]. split.
  - intros Hr Hcol Hp Hlen. rewrite Hprint.
    unfold cell. rewrite !int_of_char_small by done.
    by rewrite fit_plain.
  - intros Hp Hlen. rewrite Hrumble. by rewrite fit_plain.
Qed.

Lemma run_buttons (l : list call) (c : t) : buttons (run cs l c).1 = buttons c.
Proof.
  revert c. induction l as [|o l IH]; intros c; simpl; [done|].
  pose proof (step_buttons o c) as H. destruct (step cs o c) as [c1 e1].
  specialize (IH c1). destruct (run cs l c1) as [c2 e2]. simpl in *. congruence.
Qed.

Lemma run_set_buttons (bs : list ButtonStruct) (l : list call) (c : t) :
  run cs l (set_buttons bs c) = (set_buttons bs (run cs l c).1, (run cs l c).2).
Proof.
  revert c. induction l as [|o l IH]; intros c; simpl; [done|].
  rewrite step_set_buttons. destruct (step cs o c) as [c1 e1]. simpl.
  rewrite IH. by destruct (run cs l c1).
Qed.

Lemma button_polls_ext (samples : list (Z -> bool)) (c c' : t) :
  buttons c = buttons c' -> (button_polls samples c).2 = (button_polls samples c').2.
Proof.
  revert c c'. induction samples as [|s samples IH]; intros c c' H; simpl; [done|].
  unfold button_process. rewrite H.
  destruct (button_loop s (buttons c')) as [bs e].
  specialize (IH (set_buttons bs c) (set_buttons bs c') eq_refl).
  destruct (button_polls samples (set_buttons bs c)),
    (button_polls samples (set_buttons bs c')). simpl in *. by rewrite IH.
Qed.

(** X4.  The queue calls ([clear], [print], [rumble], [print_process])
    never touch the button table: after any run of them the entries, with
    their remembered levels and their callbacks, are what they were, so
    that the run changes nothing in what the later button passes read and
    invoke.  A registration never touches the queue: it commutes with any
    run.  And a button pass that invokes no callback commutes with any
    queue call (what an invoked callback does is outside the model). *)
Theorem queue_buttons_commute (l : list call) (o : call) (levels : Z -> bool)
    (samples : list (Z -> bool)) (button : Z) (f : option callback) (c : t) :
  buttons (run cs l c).1 = buttons c /\
  (button_polls samples (run cs l c).1).2 = (button_polls samples c).2 /\
  run cs l (button_pressed button f c)
    = (button_pressed button f (run cs l c).1, (run cs l c).2) /\
  run cs l (button_released button f c)
    = (button_released button f (run cs l c).1, (run cs l c).2) /\
  (invoked (button_process levels c).2 = [] ->
   step cs o (button_process levels c).1
     = ((button_process levels (step cs o c).1).1, (step cs o c).2) /\
   (button_process levels (step cs o c).1).2 = (button_process levels c).2).
Proof.
  split; [apply run_buttons|].
  split; [apply button_polls_ext, run_buttons|].
  split; [unfold button_pressed; by rewrite run_set_buttons, run_buttons|].
  split; [unfold button_released; by rewrite run_set_buttons, run_buttons|].
  intros _. unfold button_process. rewrite step_buttons.
  destruct (button_loop levels (buttons c)) as [bs e]. simpl.
  rewrite step_set_buttons. done.
Qed.

(** X5.  Left alone with a queue that nobody fills, the loop of the task
    forwards the queued commands oldest first, one on every even
    iteration: after [n] iterations it has forwarded the first
    [(n + 1) / 2] of them (all of them when there are fewer) and the others
    are still queued, in order; after fourteen iterations the queue is
    empty.  With two commands or more queued, the second iteration
    forwards nothing. *)
Theorem task_drains (l : list call) (samples : list (Z -> bool)) :
  let c := (run cs l c0).1 in
  let n := length samples in
  let r := task_body cs samples c in
  link r.2 = take (Nat.div2 (S n)) (pending cs c) /\
  pending cs r.1.2 = drop (Nat.div2 (S n)) (pending cs c) /\
  ((14 <= n)%nat -> link r.2 = pending cs c /\ is_buf_empty r.1.2 = true) /\
  (n = 2%nat -> (2 <= length (pending cs c))%nat ->
   link r.2 = take 1 (pending cs c) /\ is_buf_empty r.1.2 = false).
Proof.
  intros c n r.
  assert (Hr : r = ((Z.of_nat n mod 2, (poller cs 0 samples c).1),
                    (poller cs 0 samples c).2)).
  { unfold r, task_body. change 0 with (Z.of_nat 0 mod 2) at 1.
    by rewrite task_loop_poller. }
  rewrite Hr. cbn [fst snd]. clear r Hr.
  destruct (run_holds cs l c0 [] fresh) as (cmds & Hc & _). fold c in Hc.
  destruct (poller_drains samples 0 c cmds Hc) as [H1 H2].
  destruct (drains_half n) as [Hd _]. fold n in H1, H2. rewrite Hd in H1, H2.
  rewrite (holds_pending cs _ _ Hc), (holds_pending cs _ _ H2).
  rewrite <- !fmap_take, <- !fmap_drop.
  split; [done|]. split; [done|].
  destruct (holds_bounds cs c cmds Hc) as (Hle & _).
  split.
  - intros Hn.
    assert (Hbig : (length cmds <= Nat.div2 (S n))%nat).
    { destruct n as [|[|[|[|[|[|[|[|[|[|[|[|[|[|n']]]]]]]]]]]]]]; simpl; lia. }
    split.
    + by rewrite H1, take_ge.
    + apply (holds_bounds cs _ _ H2). by apply drop_ge.
  - intros Hn Hlen. rewrite length_fmap in Hlen. rewrite Hn in *. simpl in *.
    split; [done|].
    destruct (is_buf_empty (poller cs 0 samples c).1) eqn:E; [|done].
    apply (holds_bounds cs _ _ H2) in E.
    destruct cmds as [|x [|y cmds]]; simpl in *; try lia. done.
Qed.

End Constructed.

End QueueMore.

(** A use of [print_queued]: a short text on row 1 of a fresh controller. *)
Lemma print_queued_witness :
  Controller.is_buf_full example_controller = false /\
  Controller.pending false (Controller.print 1 0 "ready" example_controller)
    = [pros_print 1 0 "ready"].
Proof.
  assert (H : Controller.is_buf_full example_controller = false) by reflexivity.
  split; [exact H|].
  pose proof (print_queued false 17 15 14 16 10 11 12 13 6 7 8 9
                (fun _ _ => "x"%char) [] 1 0 "ready" "" H)
    as (_ & _ & _ & _ & Hp & _).
  apply Hp; [lia | lia | reflexivity | simpl; lia].
Defined.

(** ** More on the buttons *)

Section ButtonsMore.

Import Controller.

Lemma set_buttons_same (c : t) : set_buttons (buttons c) c = c.
Proof. by destruct c. Qed.

Lemma register_unknown (set : ButtonStruct -> ButtonStruct) (button : Z)
    (bs : list ButtonStruct) :
  button ∉ map id bs -> register set button bs = bs.
Proof.
  induction bs as [|b bs IH]; simpl; intros Hnot; [done|].
  apply not_elem_of_cons in Hnot as [Hne Hnot].
  destruct (id b =? button) eqn:E; [apply Z.eqb_eq in E; done|].
  by rewrite IH.
Qed.

(** X6.  Registering a callback for an id that no entry of the vector
    carries changes nothing. *)
Theorem register_unknown_id (button : Z) (f : option callback) (c : t) :
  button ∉ map id (buttons c) ->
  button_pressed button f c = c /\ button_released button f c = c.
Proof.
  intros Hnot. unfold button_pressed, button_released.
  rewrite !register_unknown by done. by rewrite set_buttons_same.
Qed.





(** X8.  A second pass of [button_process] over the same levels invokes
    no callback and changes nothing, whatever the callbacks registered and
    the levels remembered. *)
Theorem button_process_idempotent (levels : Z -> bool) (c : t) :
  let c1 := (button_process levels c).1 in
  invoked (button_process levels c1).2 = [] /\ (button_process levels c1).1 = c1.
Proof.
  intros c1.
  destruct (button_process_spec levels c1) as (Hb & Hi & _).
  destruct (button_process_spec levels c) as (Hb1 & _ & _). fold c1 in Hb1.
  assert (Hsame : map (fun b => set_last_state (levels (id b)) b) (buttons c1)
                  = buttons c1).
  { rewrite Hb1, map_map. apply map_ext. by intros b. }
  split.
  - rewrite Hi, Hb1. clear.
    induction (buttons c) as [|b bs IH]; simpl; [done|].
    rewrite IH, app_nil_r. unfold edge. simpl. by destruct (levels (id b)).
  - rewrite Hsame in Hb.
    unfold button_process in *.
    destruct (button_loop levels (buttons c1)) as [bs e]. simpl in *.
    rewrite Hb. apply set_buttons_same.
Qed.

Lemma edges_alternate (p r : callback) (levels : list bool) (prev : bool) :
  concat (edges prev levels (Some p) (Some r))
  = alternating (if prev then r else p) (if prev then p else r)
      (transitions prev levels).
Proof.
  revert prev. induction levels as [|cur levels IH]; intros prev; simpl; [done|].
  rewrite IH. by destruct prev, cur.
Qed.

Section Constructed.

Variables BUTTON_A BUTTON_B BUTTON_X BUTTON_Y : Z.
Variables BUTTON_UP BUTTON_DOWN BUTTON_LEFT BUTTON_RIGHT : Z.
Variables BUTTON_L1 BUTTON_L2 BUTTON_R1 BUTTON_R2 : Z.
Variable memory : nat -> nat -> ascii.

Let twelve : list Z :=
  [BUTTON_A; BUTTON_B; BUTTON_X; BUTTON_Y; BUTTON_UP; BUTTON_DOWN;
   BUTTON_LEFT; BUTTON_RIGHT; BUTTON_L1; BUTTON_L2; BUTTON_R1; BUTTON_R2].

Let c0 : t :=
  new BUTTON_A BUTTON_B BUTTON_X BUTTON_Y BUTTON_UP BUTTON_DOWN BUTTON_LEFT
    BUTTON_RIGHT BUTTON_L1 BUTTON_L2 BUTTON_R1 BUTTON_R2 memory.

(** X9.  With a press and a release callback registered for one of the
    twelve buttons of a fresh controller, the callbacks invoked over any
    number of passes alternate, the press callback first: as many as the
    sampled level of the button changes, the level before the first pass
    counting as false.  A release is never invoked before a press, nor two
    presses without a release between them. *)
Theorem callbacks_alternate (button : Z) (p r : callback)
    (samples : list (Z -> bool)) :
  button ∈ twelve ->
  let c := button_released button (Some r) (button_pressed button (Some p) c0) in
  concat (map invoked (button_polls samples c).2)
  = alternating p r (transitions false (map (fun s => s button) samples)).
Proof.
  intros Hin c.
  rewrite (armed_polls button (Some p) (Some r) samples false c).
  - apply (edges_alternate p r _ false).
  - by apply registered_armed.
Qed.

End Constructed.

End ButtonsMore.

(** A use of [register_unknown_id]: no entry of the example controller has
    the id 99. *)
Lemma register_unknown_id_witness :
  (99 ∉ map Controller.id (Controller.buttons example_controller)) /\
  Controller.button_pressed 99 (Some "p") example_controller = example_controller.
Proof.
  assert (H : 99 ∉ map Controller.id (Controller.buttons example_controller)).
  { simpl. rewrite !not_elem_of_cons. repeat split; try lia. apply not_elem_of_nil. }
  split; [exact H|].
  exact (proj1 (register_unknown_id 99 (Some "p") example_controller H)).
Defined.

(** A use of [callbacks_alternate]: button 17 pressed twice. *)
Lemma callbacks_alternate_witness :
  (17 ∈ [17; 15; 14; 16; 10; 11; 12; 13; 6; 7; 8; 9]) /\
  concat (map Controller.invoked
    (Controller.button_polls
       (map (fun (lv : bool) (_ : Z) => lv) [true; false; false; true])
       (Controller.button_released 17 (Some "r")
          (Controller.button_pressed 17 (Some "p") example_controller))).2)
  = ["p"; "r"; "p"].
Proof.
  assert (H : 17 ∈ [17; 15; 14; 16; 10; 11; 12; 13; 6; 7; 8; 9]) by constructor.
  split; [exact H|].
  exact (callbacks_alternate 17 15 14 16 10 11 12 13 6 7 8 9
           (fun _ _ => "x"%char) 17 "p" "r"
           (map (fun (lv : bool) (_ : Z) => lv) [true; false; false; true]) H).
Defined.

(** ** More on the widgets *)

Section WidgetsMore.

Import Brain.

(** X10.  A widget constructed at [(x, y)] with width [w] and height [h]
    is touched exactly by the points of the [w] by [h] rectangle that
    starts there; a widget of width or height zero or less is touched by
    no point. *)
Theorem touch_area (text : string) (color bgcolor x y w h radius : Z) (big : bool)
    (px py : Z) :
  let b := Button.init text color bgcolor x y w h radius big in
  (Button.is_touched (px, py) b = true <-> x <= px < x + w /\ y <= py < y + h) /\
  (w <= 0 \/ h <= 0 -> Button.is_touched (px, py) b = false).
Proof.
  intros b.
  assert (H : Button.is_touched (px, py) b = true
              <-> x <= px < x + w /\ y <= py < y + h).
  { unfold b, Button.is_touched, Button.init. simpl.
    rewrite !andb_true_iff, !Z.leb_le. lia. }
  split; [done|]. intros Hw.
  destruct (Button.is_touched (px, py) b); [|done].
  assert (x <= px < x + w /\ y <= py < y + h) by by apply H. lia.
Qed.

Lemma hit_loop_invoked (pick : Button.t -> option callback)
    (status : nat -> Z * Z) (k : nat) (ws : list Button.t) :
  (length (Controller.invoked (hit_loop pick status k ws)) <= 1)%nat /\
  (length (hit_loop pick status k ws) <= length ws + 1)%nat.
Proof.
  revert k. induction ws as [|b ws IH]; intros k; simpl; [lia|].
  destruct (Button.is_touched (status k) b).
  - destruct (pick b); simpl; lia.
  - destruct (IH (S k)). lia.
Qed.

Lemma tests_app (e1 e2 : list event) : tests (e1 ++ e2) = (tests e1 + tests e2)%nat.
Proof. unfold tests. by rewrite flat_map_app, length_app. Qed.

Lemma tests_replicate (n : nat) : tests (replicate n touch_status) = n.
Proof. induction n as [|n IH]; [done|]. unfold tests in *. simpl. by rewrite IH. Qed.

Lemma tests_invoke (l : list callback) : tests (map invoke l) = 0%nat.
Proof. by induction l. Qed.

(** The loop over the widgets from the reading number [k] on: it reads the
    touch status once for each widget in turn, as long as the widget is
    not under the coordinates read for it, and after the first widget that
    is, invokes the callback of that widget, when it has one, and stops. *)
Lemma hit_loop_shape (pick : Button.t -> option callback)
    (status : nat -> Z * Z) (k : nat) (ws : list Button.t) :
  exists (n : nat) (l : list callback),
    hit_loop pick status k ws = replicate n touch_status ++ map invoke l /\
    (n <= length ws)%nat /\ (length l <= 1)%nat /\
    (forall (j : nat) (b : Button.t),
       (j + 1 < n)%nat -> ws !! j = Some b ->
       Button.is_touched (status (k + j)%nat) b = false) /\
    (forall b : Button.t,
       (n <> 0)%nat -> ws !! (n - 1)%nat = Some b ->
       Button.is_touched (status (k + (n - 1))%nat) b = true ->
       l = match pick b with Some f => [f] | None => [] end) /\
    (forall b : Button.t,
       (n <> 0)%nat -> ws !! (n - 1)%nat = Some b ->
       Button.is_touched (status (k + (n - 1))%nat) b = false ->
       l = [] /\ n = length ws) /\
    (n = 0%nat -> ws = [] /\ l = []).
Proof.
  revert k. induction ws as [|b ws IH]; intros k.
  - exists 0%nat, []. simpl. repeat split; try done; lia.
  - simpl. destruct (Button.is_touched (status k) b) eqn:E.
    + exists 1%nat, (match pick b with Some f => [f] | None => [] end).
      split; [by destruct (pick b)|]. split; [simpl; lia|].
      split; [destruct (pick b); simpl; lia|].
      split; [intros; lia|].
      split; [intros b' _ [= <-] _; done|].
      split; [|lia].
      intros b' _ [= <-]. rewrite Nat.add_0_r. congruence.
    + destruct (IH (S k)) as (n & l & Heq & Hn & Hl & Hbefore & Hhit & Hmiss & Hzero).
      exists (S n), l. rewrite Heq.
      split; [done|]. split; [simpl; lia|]. split; [done|].
      split.
      { intros j b' Hj. destruct j as [|j]; simpl.
        - intros [= <-]. by rewrite Nat.add_0_r.
        - intros Hb'. replace (k + S j)%nat with (S k + j)%nat by lia.
          apply Hbefore; [lia | done]. }
      destruct n as [|n].
      { destruct (Hzero eq_refl) as [-> ->]. simpl.
        split; [intros b' _ [= <-]; rewrite Nat.add_0_r; congruence|].
        split; [done|lia]. }
      replace (S (S n) - 1)%nat with (S (S n - 1)) by lia.
      replace (k + S (S n - 1))%nat with (S k + (S n - 1))%nat by lia.
      cbn [lookup list_lookup].
      split; [intros b' _; by apply Hhit|].
      split; [|lia].
      intros b' _ H1 H2. destruct (Hmiss b' ltac:(lia) H1 H2) as [-> ->]. done.
Qed.

(** X11.  Whatever the touch coordinates read during the event, a
    touch-pressed and a touch-released event each invoke at most one
    widget callback (at most two callbacks with the whole-screen one) and
    read the touch status at most once per widget of the display.  The
    loop over the widgets reads the status for the widgets in turn, each
    with its own reading, passes those that are not touched, and ends
    with the first that is, whose callback, when it has one, is the last
    thing the event does. *)
Theorem one_widget_per_touch (ret : callback -> bool) (status : nat -> Z * Z)
    (p : process) (self : t) :
  let ws := listed p self in
  (forall event : list event,
     event = touch_pressed_func ret status p self \/
     event = touch_released_func ret status p self ->
     (length (Controller.invoked event) <= 2)%nat /\
     (tests event <= length ws)%nat /\
     (length ws <= length (buttons self))%nat) /\
  (forall pick : Button.t -> option callback,
   exists (n : nat) (l : list callback),
     hit_loop pick status 0 ws = replicate n touch_status ++ map invoke l /\
     (n <= length ws)%nat /\ (length l <= 1)%nat /\
     (forall (j : nat) (b : Button.t),
        (j + 1 < n)%nat -> ws !! j = Some b ->
        Button.is_touched (status j) b = false) /\
     (forall b : Button.t,
        (n <> 0)%nat -> ws !! (n - 1)%nat = Some b ->
        if Button.is_touched (status (n - 1)%nat) b
        then l = match pick b with Some f => [f] | None => [] end
        else l = [] /\ n = length ws) /\
     (n = 0%nat -> ws = [])).
Proof.
  intros ws.
  assert (Hl : (length ws <= length (buttons self))%nat).
  { unfold ws, listed. induction (buttons self) as [|i l IH]; [done|].
    cbn [omap list_omap]. destruct (widgets p !! i); simpl; lia. }
  assert (Hloop : forall pick,
    (length (Controller.invoked (hit_loop pick status 0 ws)) <= 1)%nat /\
    (tests (hit_loop pick status 0 ws) <= length ws)%nat).
  { intros pick.
    destruct (hit_loop_shape pick status 0 ws) as (n & l & -> & Hn & Hl1 & _).
    rewrite invoked_app, tests_app, tests_replicate, tests_invoke.
    rewrite invoked_map_invoke.
    assert (Controller.invoked (replicate n touch_status) = []) as ->
      by (clear; by induction n).
    simpl. lia. }
  split.
  - intros event Hev.
    split; [|split; [|done]].
    + destruct (Hloop Button.on_press) as [H1 _].
      destruct (Hloop Button.on_release) as [H2 _].
      destruct Hev as [-> | ->];
        unfold touch_pressed_func, touch_released_func, touch_func; fold ws.
      * destruct (on_press self) as [f|]; [destruct (ret f)|]; simpl; lia.
      * destruct (on_release self) as [f|]; [destruct (ret f)|]; simpl; lia.
    + destruct (Hloop Button.on_press) as [_ H1].
      destruct (Hloop Button.on_release) as [_ H2].
      destruct Hev as [-> | ->];
        unfold touch_pressed_func, touch_released_func, touch_func; fold ws.
      * destruct (on_press self) as [f|]; [destruct (ret f)|];
          unfold tests in *; simpl in *; lia.
      * destruct (on_release self) as [f|]; [destruct (ret f)|];
          unfold tests in *; simpl in *; lia.
  - intros pick.
    destruct (hit_loop_shape pick status 0 ws)
      as (n & l & Heq & Hn & Hl1 & Hbefore & Hhit & Hmiss & Hzero).
    exists n, l. split; [done|]. split; [done|]. split; [done|].
    split; [intros j b Hj Hb; by apply (Hbefore j b)|].
    split; [|intros H; by destruct (Hzero H)].
    intros b Hn0 Hb. simpl in Hhit, Hmiss.
    destruct (Button.is_touched (status (n - 1)%nat) b) eqn:E.
    + by apply (Hhit b).
    + by apply (Hmiss b).
Qed.

(** Every action keeps the lists of the displays in construction order. *)
Lemma act_ordered (p : process) (a : action) :
  Forall (ordered p) (brains p) -> Forall (ordered (act p a)) (brains (act p a)).
Proof.
  intros H.
  assert (Hgrow : forall ws' : list Button.t,
    (length (widgets p) <= length ws')%nat ->
    forall i bs, Forall (ordered (mkProcess i bs ws')) (brains p)).
  { intros ws' Hle i bs. eapply Forall_impl; [exact H|].
    intros b [Ho Hv]. split; [done|].
    eapply Forall_impl; [exact Hv|]. simpl. intros; lia. }
  destruct a; simpl; unfold new_Button; simpl.
  - apply Forall_app. split; [by apply Hgrow|].
    constructor; [|done]. split; [|constructor].
    intros i j x y _ Hi. simpl in Hi. discriminate.
  - destruct (instance p) as [parent|]; simpl.
    + apply Forall_alter.
      * apply Hgrow. rewrite length_app. lia.
      * intros b Hb _. rewrite Forall_forall in H.
        destruct (H b (list_elem_of_lookup_2 _ _ _ Hb)) as [Ho Hv].
        split; simpl.
        -- intros i j u v Hij Hi Hj.
           apply lookup_lt_Some in Hj as Hjl. rewrite length_app in Hjl. simpl in Hjl.
           rewrite lookup_app_l in Hi by lia.
           destruct (decide (j < length (buttons b))%nat) as [Hlt|Hge].
           ++ rewrite lookup_app_l in Hj by done. exact (Ho i j u v Hij Hi Hj).
           ++ rewrite lookup_app_r in Hj by lia.
              replace (j - length (buttons b))%nat with 0%nat in Hj by lia.
              injection Hj as <-.
              rewrite Forall_forall in Hv.
              apply (Hv u). by eapply list_elem_of_lookup_2.
        -- rewrite length_app. simpl. apply Forall_app. split.
           ++ eapply Forall_impl; [exact Hv|]. simpl. intros; lia.
           ++ constructor; [lia | constructor].
    + apply Hgrow. rewrite length_app. lia.
  - apply Forall_alter; [by apply Hgrow|]. by intros b _ Hb.
  - apply Forall_alter; [by apply Hgrow|]. by intros b _ Hb.
  - apply Hgrow. by rewrite length_alter.
  - apply Hgrow. by rewrite length_alter.
Qed.

(** X12.  Along every history of constructions and registrations, the
    list of every display holds pointers to constructed widgets, in the
    order of their construction and none twice: hit-testing follows
    construction order, and every pointer of a list designates a widget. *)
Theorem registration_order (l : list action) (b : t) :
  let p := perform l start in
  b ∈ brains p ->
  ordered p b /\ NoDup (buttons b) /\ length (listed p b) = length (buttons b).
Proof.
  intros p Hb.
  assert (H : Forall (ordered p) (brains p)).
  { unfold p, perform. clear Hb.
    assert (Hs : Forall (ordered start) (brains start)) by constructor.
    revert Hs. generalize start. induction l as [|a l IH]; intros q Hq; [done|].
    simpl. apply IH. by apply act_ordered. }
  rewrite Forall_forall in H. specialize (H b Hb). split; [done|].
  destruct H as [Ho Hv]. split.
  - apply NoDup_alt. intros i j x Hi Hj.
    destruct (Nat.lt_trichotomy i j) as [Hlt|[Heq|Hgt]]; [|done|].
    + specialize (Ho i j x x Hlt Hi Hj). lia.
    + specialize (Ho j i x x Hgt Hj Hi). lia.
  - unfold listed. clear Ho. induction Hv as [|i rest Hi _ IH]; [done|].
    cbn [omap list_omap]. destruct (widgets p !! i) eqn:E; simpl.
    + by rewrite IH.
    + apply lookup_ge_None in E. lia.
Qed.

(** X13.  [self_check] answers the empty string exactly when every device
    of the list, taken at the absolute value of its port, is installed. *)
Theorem self_check_passes (installed : Device -> Z -> bool)
    (devices : list DeviceInfo) :
  self_check installed devices = ""%string <->
  Forall (fun d => check_device installed (Z.abs (port d)) (type d) = true) devices.
Proof.
  induction devices as [|d devices IH]; simpl.
  - split; [constructor | done].
  - destruct (check_device installed (Z.abs (port d)) (type d)) eqn:E; simpl.
    + rewrite IH. split.
      * intros H. by constructor.
      * intros H. by inversion H.
    + split; [discriminate|]. intros H. inversion H. congruence.
Qed.

(** X14.  Otherwise it names the first device of the list that is not
    installed, with the absolute value of its port, and looks no further;
    a device of the kind [Unknown] is never installed. *)
Theorem self_check_first_failure (installed : Device -> Z -> bool)
    (pre : list DeviceInfo) (d : DeviceInfo) (post : list DeviceInfo) :
  Forall (fun d => check_device installed (Z.abs (port d)) (type d) = true) pre ->
  check_device installed (Z.abs (port d)) (type d) = false ->
  self_check installed (pre ++ d :: post)
    = ("Err: [" +:+ pretty (Z.abs (port d)) +:+ "] " +:+ name d)%string /\
  (forall port : Z, check_device installed port Unknown = false).
Proof.
  intros Hpre Hd. split; [|done].
  induction Hpre as [|a pre Ha _ IH]; simpl.
  - by rewrite Hd.
  - by rewrite Ha.
Qed.

End WidgetsMore.

(** A use of [registration_order]: the display of the example process. *)
Lemma registration_order_witness :
  (Brain.mk None None [0%nat; 1%nat] ∈ Brain.brains example_process) /\
  NoDup [0%nat; 1%nat].
Proof.
  assert (H : Brain.mk None None [0%nat; 1%nat] ∈ Brain.brains example_process)
    by constructor.
  split; [exact H|].
  exact (proj1 (proj2 (registration_order
    [Brain.NewBrain;
     Brain.NewButton "A" 0 0 10 10 100 50 3 false;
     Brain.NewButton "B" 0 0 60 30 100 50 3 false;
     Brain.ButtonPressed 0 (Some "a"); Brain.ButtonPressed 1 (Some "b")]
    (Brain.mk None None [0%nat; 1%nat]) H))).
Defined.

(** A use of [self_check_first_failure]: the motor on port 2, given as -2,
    is the only device that does not answer. *)
Lemma self_check_first_failure_witness :
  Brain.self_check (fun _ port => negb (port =? 2)) example_devices
  = "Err: [2] right"%string.
Proof.
  refine (proj1 (self_check_first_failure (fun _ port => negb (port =? 2))
            [Brain.mkDeviceInfo 1 Brain.Motor "left"]
            (Brain.mkDeviceInfo (-2) Brain.Motor "right")
            [Brain.mkDeviceInfo 5 Brain.Imu "imu"] _ _)).
  - repeat constructor.
  - reflexivity.
Defined.

(** ** More on the bitmap blit *)

Section BlitMore.

Import Brain.

(** X15.  On a file of exactly 1028 bytes, the header and the palette of
    an image of positive height without any pixel, [draw_image] never
    returns: the position stays at the origin, so the loop keeps taking the
    branch that does not read and never reaches its end. *)
Theorem draw_image_spins (fuel : nat) (sd : storage) (eraser : Z)
    (filename : string) (x y bgcolor : Z) (content : list byte) :
  usd_installed sd = true -> files sd filename = Some content ->
  length content = 1028%nat ->
  0 < Z.lor (Z.shiftl (byte_at content 2) 8) (byte_at content 3) ->
  draw_image fuel sd eraser filename x y bgcolor = None.
Proof.
  intros Hsd Hfile Hlen Hh. unfold draw_image. rewrite Hsd, Hfile. cbn [negb].
  assert (Hbuf : take 2048 content = content) by (apply take_ge; lia).
  rewrite Hbuf, Hlen. change (1028 <? 4 + 1024)%nat with false. cbn iota.
  assert (Hd : drop 1028 content = []) by (apply drop_ge; lia).
  destruct (uint32 bgcolor =? 4294967295); by rewrite rows_spins.
Qed.

(** X16.  On a file that one read brings in whole (at most 2048 bytes)
    and that holds at least one pixel, a call for an image of positive
    height returns after drawing every byte that follows the palette, in
    file order: the declared height does not cut the drawing short. *)
Theorem draw_image_single_read (fuel : nat) (sd : storage) (eraser : Z)
    (filename : string) (x y bgcolor : Z) (content : list byte) :
  usd_installed sd = true -> files sd filename = Some content ->
  (1028 < length content <= 2048)%nat ->
  let bg := if uint32 bgcolor =? 0xffffffff then int32 eraser else bgcolor in
  let w := Z.lor (Z.shiftl (byte_at content 0) 8) (byte_at content 1) in
  let h := Z.lor (Z.shiftl (byte_at content 2) 8) (byte_at content 3) in
  0 < h ->
  exists evs : list event,
    draw_image (2 + fuel) sd eraser filename x y bgcolor = Some evs /\
    drawing evs
    = (pixels (palette_of content bg) (alpha_of content)
         (anchor SCREEN_W w x) (anchor SCREEN_H h y) w (0, 0)
         (drop 1028 content)).2.
Proof.
  intros Hsd Hfile Hlen bg w h Hh. unfold draw_image. rewrite Hsd, Hfile. cbn [negb].
  assert (Hbuf : take 2048 content = content) by (apply take_ge; lia).
  assert (Hrest : drop 2048 content = []) by (apply drop_ge; lia).
  rewrite Hbuf, Hrest.
  assert (L : (length content <? 4 + 1024)%nat = false) by (apply Nat.ltb_ge; lia).
  rewrite L. fold w h.
  assert (Hne : drop 1028 content <> []).
  { intros E. apply (f_equal length) in E. rewrite length_drop in E.
    change (length []) with 0%nat in E. lia. }
  assert (T : forall pal al x0 y0,
    exists e, rows pal al x0 y0 w h (2 + fuel) content [] (0, 0) = Some e /\
      drawing e = (pixels pal al x0 y0 w (0, 0) (drop 1028 content)).2).
  { intros pal al x0 y0. change (2 + fuel)%nat with (S (S fuel)).
    cbn [rows fst snd]. apply Z.ltb_lt in Hh. rewrite Hh. cbn [andb Z.eqb].
    pose proof (pixels_progress pal al x0 y0 w (0, 0) (drop 1028 content)
                  ltac:(done) ltac:(done) (or_intror Hne)) as (H1 & H2 & H3).
    pose proof (drawing_pixels pal al x0 y0 w (0, 0) (drop 1028 content)) as Hd.
    destruct (pixels pal al x0 y0 w (0, 0) (drop 1028 content)) as [st1 e1].
    simpl in H1, H2, H3, Hd. rewrite H3.
    destruct (st1.2 <? h); simpl; eexists; (split; [reflexivity|]);
      rewrite !drawing_app, Hd; simpl; by rewrite app_nil_r. }
  unfold bg.
  destruct (uint32 bgcolor =? 4294967295).
  - destruct (T (palette_of content (int32 eraser)) (alpha_of content)
                (anchor SCREEN_W w x) (anchor SCREEN_H h y)) as (e & -> & He).
    eexists. split; [reflexivity|]. simpl. exact He.
  - destruct (T (palette_of content bgcolor) (alpha_of content)
                (anchor SCREEN_W w x) (anchor SCREEN_H h y)) as (e & -> & He).
    eexists. split; [reflexivity|]. simpl. exact He.
Qed.

Lemma next_position (w k : Z) :
  0 < w -> 0 <= k ->
  (if w <=? k mod w + 1 then (0, k / w + 1) else (k mod w + 1, k / w))
  = ((k + 1) mod w, (k + 1) / w).
Proof.
  intros Hw Hk.
  pose proof (Z.div_mod k w ltac:(lia)) as Hdm.
  pose proof (Z.mod_pos_bound k w Hw) as Hm.
  generalize dependent (k mod w). generalize dependent (k / w). intros q r Hdm Hm.
  destruct (w <=? r + 1) eqn:E.
  - apply Z.leb_le in E. f_equal.
    + apply (Z.mod_unique_pos _ _ (q + 1)); lia.
    + apply (Z.div_unique_pos _ _ _ 0); lia.
  - apply Z.leb_gt in E. f_equal.
    + apply (Z.mod_unique_pos _ _ q); lia.
    + apply (Z.div_unique_pos _ _ _ (r + 1)); lia.
Qed.

Section Positions.

Variables (palette alpha : list Z) (x0 y0 w : Z).

(** What the pixel number [k] of the data draws. *)
Let drawn (k : nat) (index : byte) : list event :=
  if default 0 (alpha !! Z.to_nat (u8 index)) =? 0 then []
  else [set_pen (default 0 (palette !! Z.to_nat (u8 index)));
        draw_pixel (Z.of_nat k mod w + x0) (Z.of_nat k / w + y0)].

Lemma pixel_at (n : nat) (index : byte) :
  0 < w ->
  pixel palette alpha x0 y0 w (Z.of_nat n mod w, Z.of_nat n / w) index
  = ((Z.of_nat (S n) mod w, Z.of_nat (S n) / w), drawn n index).
Proof.
  intros Hw. unfold pixel, drawn.
  pose proof (next_position w (Z.of_nat n) Hw ltac:(lia)) as H.
  replace (Z.of_nat (S n)) with (Z.of_nat n + 1) by lia. rewrite <- H.
  by destruct (w <=? Z.of_nat n mod w + 1).
Qed.

Lemma pixels_from (bytes : list byte) (n : nat) :
  0 < w ->
  pixels palette alpha x0 y0 w (Z.of_nat n mod w, Z.of_nat n / w) bytes
  = ((Z.of_nat (n + length bytes) mod w, Z.of_nat (n + length bytes) / w),
     concat (imap (fun k => drawn (n + k)) bytes)).
Proof.
  intros Hw. revert n. induction bytes as [|i bytes IH]; intros n.
  - simpl. by rewrite Nat.add_0_r.
  - rewrite imap_cons. cbn [pixels concat length].
    rewrite pixel_at by done. rewrite IH. f_equal.
    + f_equal; f_equal; lia.
    + rewrite Nat.add_0_r. f_equal. f_equal.
      apply imap_ext. intros k j _. simpl. f_equal. lia.
Qed.

(** X17.  The pixels are laid out row by row: for an image of positive
    width, the byte number [k] after the palette is drawn (unless its
    entry is transparent) at column [k mod w] and row [k / w] from the
    anchor, in the colour of its entry, and the first [w * h] bytes stay
    inside the [w] by [h] rectangle. *)
Theorem pixels_row_major (bytes : list byte) (h k : Z) :
  0 < w ->
  pixels palette alpha x0 y0 w (0, 0) bytes
  = ((Z.of_nat (length bytes) mod w, Z.of_nat (length bytes) / w),
     concat (imap
       (fun (k : nat) (index : byte) =>
          if default 0 (alpha !! Z.to_nat (u8 index)) =? 0 then []
          else [set_pen (default 0 (palette !! Z.to_nat (u8 index)));
                draw_pixel (Z.of_nat k mod w + x0) (Z.of_nat k / w + y0)])
       bytes)) /\
  (0 <= k < w * h -> 0 <= k mod w < w /\ 0 <= k / w < h).
Proof.
  intros Hw. split.
  - pose proof (pixels_from bytes 0 Hw) as H.
    rewrite Z.mod_0_l, Z.div_0_l in H by lia. exact H.
  - intros Hk. split; [apply Z.mod_pos_bound; lia|]. split.
    + apply Z.div_pos; lia.
    + apply Z.div_lt_upper_bound; lia.
Qed.

End Positions.

(** X18.  Where an image of extent [e] lands on an axis of length [s]: an
    anchor that is not negative and not [CENTER] is the offset of its near
    edge; a negative anchor [a] leaves its far edge [-a] short of the far
    end; [CENTER] puts it in the middle, the far margin being the near one
    or one more when the image fits, and hanging over evenly (the near
    side by at most one less) when it does not. *)
Theorem anchor_places (s e a : Z) :
  (0 <= a -> a <> CENTER -> anchor s e a = a) /\
  (a < 0 -> anchor s e a + e = s + a) /\
  (e <= s ->
   0 <= anchor s e CENTER /\
   0 <= (s - e - anchor s e CENTER) - anchor s e CENTER <= 1) /\
  (s <= e ->
   anchor s e CENTER <= 0 /\
   -1 <= (s - e - anchor s e CENTER) - anchor s e CENTER <= 0).
Proof.
  unfold anchor, CENTER. simpl.
  split.
  { intros Ha Hc. apply Z.eqb_neq in Hc. rewrite Hc.
    apply Z.leb_le in Ha. by rewrite Ha. }
  split.
  { intros Ha. destruct (a =? 65535) eqn:E; [lia|].
    destruct (0 <=? a) eqn:E2; lia. }
  split; intros H; lia.
Qed.

End BlitMore.

(** A use of [draw_image_spins]: the card whose files all end with the
    palette. *)
Lemma draw_image_spins_witness :
  Brain.draw_image 1000 bare_card 0 "logo.bin" 0 0 (-1) = None.
Proof.
  apply (draw_image_spins 1000 bare_card 0 "logo.bin" 0 0 (-1) header_only);
    reflexivity.
Defined.

(** A use of [draw_image_single_read]: the example image, whose four
    pixels are all visited. *)
Lemma draw_image_single_read_witness :
  exists evs : list event,
    Brain.draw_image 2 example_card 0 "logo.bin" 0 0 (-1) = Some evs /\
    Brain.drawing evs
    = [set_pen 0xff0000; draw_pixel 0 0; set_pen 0x000080; draw_pixel 0 1;
       set_pen 0xff0000; draw_pixel 1 1].
Proof.
  refine (draw_image_single_read 0 example_card 0 "logo.bin" 0 0 (-1)
            example_image eq_refl eq_refl _ _).
  - vm_compute. lia.
  - reflexivity.
Defined.

(** A use of [pixels_row_major]: the sixth pixel of an image three wide. *)
Lemma pixels_row_major_witness :
  0 <= 5 mod 3 < 3 /\ 0 <= 5 / 3 < 2.
Proof.
  refine (proj2 (pixels_row_major [] [] 0 0 3 [] 2 5 _) _); lia.
Defined.

(** ** Digital outputs and the time stamp *)

Section Small.

Import ADIDigitalOut.

Lemma operate_app (l1 l2 : list operation) (d : t) :
  operate (l1 ++ l2) d =
  ((operate l2 (operate l1 d).1).1, (operate l1 d).2 ++ (operate l2 (operate l1 d).1).2).
Proof.
  revert d. induction l1 as [|o l1 IH]; intros d; simpl.
  - by destruct (operate l2 d).
  - destruct o; simpl; rewrite ?IH.
    + done.
    + destruct (operate l1 _) as [d1 v1]. simpl.
      by destruct (operate l2 d1).
    + destruct (operate l1 _) as [d1 v1]. simpl.
      by destruct (operate l2 d1).
    + destruct (operate l1 _) as [d1 v1]. simpl.
      by destruct (operate l2 d1).
Qed.

(** X19.  After any sequence of operations that ends with [press],
    [release] or [toggle], the level last handed to [set_value] is
    [current_value] xor [is_reversed]; [press] leaves [current_value] true
    and [release] false, and none of the three changes the orientation
    that the last [reverse] chose. *)
Theorem written_level (l : list operation) (d : t) :
  let before := (operate l d).1 in
  let level := fun r : t * list bool =>
    last r.2 = Some (xorb (current_value r.1) (is_reversed r.1)) /\
    is_reversed r.1 = is_reversed before in
  (level (operate (l ++ [Press]) d) /\
   current_value (operate (l ++ [Press]) d).1 = true) /\
  (level (operate (l ++ [Release]) d) /\
   current_value (operate (l ++ [Release]) d).1 = false) /\
  (level (operate (l ++ [Toggle]) d) /\
   current_value (operate (l ++ [Toggle]) d).1 = negb (current_value before)).
Proof.
  intros before level. unfold level. rewrite !operate_app. fold before.
  simpl. rewrite !last_snoc.
  destruct before as [cv rev]. by destruct cv, rev.
Qed.

(** X20.  Two [toggle]s in a row restore the object and write two opposite
    levels; [toggle] after [press] is [release] and [toggle] after
    [release] is [press]; and a [toggle] made right after the orientation
    was flipped writes again the level that the object stood for. *)
Theorem toggle_laws (d : t) :
  (toggle (toggle d).1).1 = d /\
  (toggle (toggle d).1).2 = negb (toggle d).2 /\
  toggle (press d).1 = release d /\
  toggle (release d).1 = press d /\
  (toggle (reverse (negb (is_reversed d)) d)).2
    = xorb (current_value d) (is_reversed d).
Proof. destruct d as [cv rev]. by destruct cv, rev. Qed.

End Small.

Section Timestamp.

Import Brain.

Lemma month_loop_range (mmm : string) (names : list string) (m : Z) :
  m + 1 <= month_loop mmm m names <= m + Z.of_nat (length names) \/
  (month_loop mmm m names = m + Z.of_nat (length names) /\ mmm ∉ names).
Proof.
  revert m. induction names as [|name names IH]; intros m; simpl.
  - right. split; [lia | apply not_elem_of_nil].
  - destruct (String.eqb mmm name) eqn:E.
    + left. lia.
    + apply String.eqb_neq in E.
      destruct (IH (m + 1)) as [H|[H Hn]]; [left; lia|].
      right. split; [lia|]. apply not_elem_of_cons. done.
Qed.

Lemma month_loop_unknown (mmm : string) (names : list string) (m : Z) :
  mmm ∉ names -> month_loop mmm m names = m + Z.of_nat (length names).
Proof.
  revert m. induction names as [|name names IH]; intros m Hn; simpl; [lia|].
  apply not_elem_of_cons in Hn as [Hne Hn].
  apply String.eqb_neq in Hne. rewrite Hne, IH by done. lia.
Qed.

(** X21.  The month written is always between 1 and 12: the twelve English
    abbreviations give 1 to 12 in order, and any other first word gives
    12, as "Dec" does. *)
Theorem month_numbering (mmm : string) :
  1 <= month_loop mmm 0 months <= 12 /\
  (mmm ∉ months -> month_loop mmm 0 months = 12) /\
  (forall (k : nat) (name : string),
     months !! k = Some name -> month_loop name 0 months = Z.of_nat k + 1).
Proof.
  split; [|split].
  - destruct (month_loop_range mmm months 0) as [H|[H _]];
      change (Z.of_nat (length months)) with 12 in H; lia.
  - intros Hn. by rewrite month_loop_unknown.
  - intros k name Hk.
    do 12 (destruct k as [|k]; [injection Hk as <-; reflexivity|]).
    done.
Qed.

Lemma stoi_nil : stoi [] = None.
Proof. reflexivity. Qed.

Lemma read_word_head (l : list ascii) (a : ascii) (w : list ascii) :
  (read_word l).1 = a :: w -> isspace a = false.
Proof.
  destruct l as [|a0 l]; simpl; [done|].
  destruct (isspace a0) eqn:E; [done|].
  destruct (read_word l). simpl. by intros [= <- _].
Qed.

Lemma stoi_no_digit (a : ascii) (w : list ascii) :
  isspace a = false -> digit a = None -> a <> "-"%char -> a <> "+"%char ->
  stoi (a :: w) = None.
Proof.
  intros Hs Ha Hm Hp. unfold stoi. simpl skip_ws. rewrite Hs.
  destruct a as [[] [] [] [] [] [] [] []];
    try congruence; try (by vm_compute in Ha); reflexivity.
Qed.

(** X22.  When the date holds fewer than three words (no day, or no
    year), [get_timestamp] ends by the exception of [std::stoi], whatever
    the month and the time are; so does it when the day or the year does
    not start with a digit or a sign. *)
Theorem get_timestamp_throws (d t : string) :
  let l := c_str (list_ascii_of_string d) in
  let dd := (extract (extract l).2).1 in
  let yyyy := (extract (extract (extract l).2).2).1 in
  (dd = [] \/ yyyy = [] -> get_timestamp d t = throws) /\
  (forall a rest,
     dd = a :: rest \/ yyyy = a :: rest ->
     digit a = None -> a <> "-"%char -> a <> "+"%char ->
     get_timestamp d t = throws).
Proof.
  intros l dd yyyy. unfold get_timestamp. subst dd yyyy. fold l.
  destruct (extract l) as [mmm l1]. simpl.
  pose proof (read_word_head (skip_ws l1)) as H1.
  pose proof (read_word_head (skip_ws (extract l1).2)) as H2.
  fold (extract l1) in H1. fold (extract (extract l1).2) in H2.
  destruct (extract l1) as [dd l2]. simpl in *.
  destruct (extract l2) as [yyyy l3]. simpl in *.
  split.
  - intros [-> | ->]; [done|]. rewrite stoi_nil. by destruct (stoi dd).
  - intros a rest [-> | ->] Ha Hm Hp.
    + by rewrite (stoi_no_digit a rest) by eauto.
    + rewrite (stoi_no_digit a rest) by eauto. by destruct (stoi dd).
Qed.

End Timestamp.

(** The stamp of a build, a day of one digit, and an unknown month. *)
Example get_timestamp_examples :
  Brain.get_timestamp "Oct 29 2026" "18:48:07" = Brain.written "10/29/2026 18:48:07" /\
  Brain.get_timestamp "Feb  9 2026" "08:01:02" = Brain.written "02/09/2026 08:01:02" /\
  Brain.get_timestamp "Okt 29 2026" "18:48:07" = Brain.written "12/29/2026 18:48:07" /\
  Brain.get_timestamp "Oct 29" "18:48:07" = Brain.throws /\
  Brain.get_timestamp "Oct 29 2026" "18:48:07 +0100" = Brain.overflows.
Proof. vm_compute. done. Qed.

(** A use of [get_timestamp_throws]: a date without its year. *)
Lemma get_timestamp_throws_witness :
  Brain.get_timestamp "Oct 29" "18:48:07" = Brain.throws.
Proof.
  exact (proj1 (get_timestamp_throws "Oct 29" "18:48:07") (or_intror eq_refl)).
Defined.
